(** * osipi: the Tofts and Extended Tofts tissue models

    A shallow embedding of [src/osipi/_tissue.py] and the properties of its
    two entry points, [tofts] and [extended_tofts].

    Modelling conventions.
    - A numpy array of floats is a [list R]; a scalar is an [R].  The
      development reasons over the real numbers: rounding, infinities and
      NaN of binary64 are outside the model.  The one place where rounding
      decides between a result and an exception inside the scalar code, the
      unit conversion of [Ktrans] followed by the quotients [Tc] and [kep],
      is modelled a second time in binary64 (module [binary64]).
    - A Python exception is a [Raise e] in the [result] type; a call of
      [warnings.warn] adds a message to the list returned next to the result.
    - numpy and scipy primitives are written out from their documented
      behaviour ([np.diff], [np.allclose], [np.convolve], [np.linspace],
      [interp1d] with [bounds_error=False, fill_value=0]).  Two collaborators
      stay abstract: the quadratic spline that [interp1d] evaluates inside
      its bounds, and [exp_conv], which lives in [osipi/_convolution.py]. *)

From Stdlib Require Import String.
From Stdlib Require Import Reals Lra Lia List ZArith Bool Arith.
From Stdlib Require PrimFloat.
Import ListNotations.
Open Scope R_scope.

(** ** Exceptions and the error monad *)

Inductive exn : Type :=
| IndexError
| ValueError
| ZeroDivisionError
| OverflowError.

Inductive result (A : Type) : Type :=
| Ok (a : A)
| Raise (e : exn).

Arguments Ok {A} a.
Arguments Raise {A} e.

Definition bind {A B : Type} (m : result A) (k : A -> result B) : result B :=
  match m with
  | Ok a => k a
  | Raise e => Raise e
  end.

Notation "x <- m ;; k" := (bind m (fun x => k))
  (at level 61, m at next level, right associativity).

(** ** Scalars and arrays *)

Definition array : Type := list R.

Definition Rle_bool (x y : R) : bool := if Rle_dec x y then true else false.
Definition Rlt_bool (x y : R) : bool := if Rlt_dec x y then true else false.

(** [c * a] and [a * c] for a scalar [c] and an array [a]. *)
Definition scale (c : R) (a : array) : array := map (fun x => c * x) a.
Definition scale_r (a : array) (c : R) : array := map (fun x => x * c) a.

Fixpoint zip_with (f : R -> R -> R) (a b : array) : array :=
  match a, b with
  | x :: a', y :: b' => f x y :: zip_with f a' b'
  | _, _ => []
  end.

(** [a + b] on arrays, with numpy's broadcasting of a one-element operand;
    shapes that do not broadcast raise [ValueError]. *)
Definition add (a b : array) : result array :=
  if (length a =? length b)%nat then Ok (zip_with Rplus a b)
  else if (length a =? 1)%nat then Ok (map (fun y => hd 0 a + y) b)
  else if (length b =? 1)%nat then Ok (map (fun x => x + hd 0 b) a)
  else Raise ValueError.

(** [a[i]] for a non-negative index, and [a[-1]]. *)
Definition getitem (a : array) (i : nat) : result R :=
  match nth_error a i with
  | Some x => Ok x
  | None => Raise IndexError
  end.

Definition getitem_last (a : array) : result R :=
  match a with
  | [] => Raise IndexError
  | _ :: _ => Ok (last a 0)
  end.

(** Python's [x / y] on floats. *)
Definition py_div (x y : R) : result R :=
  if Req_dec_T y 0 then Raise ZeroDivisionError else Ok (x / y).

(** Python's [int(x)]: truncation towards zero. *)
Definition int (x : R) : Z := if Rle_dec 0 x then Zfloor x else Zceil x.

(** ** numpy *)

Module np.

Fixpoint diff (a : array) : array :=
  match a with
  | x :: ((y :: _) as tl) => (y - x) :: diff tl
  | _ => []
  end.

Definition rtol : R := 1e-5.
Definition atol : R := 1e-8.

(** [np.allclose(a, b)] for an array [a] and a scalar [b]. *)
Definition allclose (a : array) (b : R) : bool :=
  forallb (fun x => Rle_bool (Rabs (x - b)) (atol + rtol * Rabs b)) a.

Definition min (a : array) : result R :=
  match a with
  | [] => Raise ValueError
  | x :: a' => Ok (fold_left Rmin a' x)
  end.

Fixpoint padd (a b : array) : array :=
  match a, b with
  | [], _ => b
  | _, [] => a
  | x :: a', y :: b' => (x + y) :: padd a' b'
  end.

(** The full discrete convolution [sum_i a[i] * v[k - i]]. *)
Fixpoint conv_full (a v : array) : array :=
  match a with
  | [] => []
  | x :: a' =>
      match a' with
      | [] => scale x v
      | _ :: _ => padd (scale x v) (0 :: conv_full a' v)
      end
  end.

Definition convolve (a v : array) : result array :=
  match a, v with
  | [], _ => Raise ValueError
  | _, [] => Raise ValueError
  | _, _ => Ok (conv_full a v)
  end.

(** [np.linspace(start, stop, num)] with the default [endpoint=True]. *)
Definition linspace (start stop : R) (num : Z) : result array :=
  if (num <? 0)%Z then Raise ValueError
  else
    let step := (stop - start) / IZR (num - 1) in
    match Z.to_nat num with
    | O => Ok []
    | S O => Ok [start]
    | S n => Ok (map (fun i => start + INR i * step) (seq 0 n) ++ [stop])
    end.

End np.

(** ** scipy.interpolate.interp1d *)

Module scipy.

Inductive kind : Type :=
| linear
| quadratic.

(** The least number of samples [interp1d] accepts for a kind. *)
Definition minval (k : kind) : nat :=
  match k with
  | linear => 1
  | quadratic => 3
  end.

(** [interp1d] sorts its samples by abscissa (stable) before anything else. *)
Fixpoint insert (p : R * R) (l : list (R * R)) : list (R * R) :=
  match l with
  | [] => [p]
  | q :: l' => if Rle_dec (fst p) (fst q) then p :: l else q :: insert p l'
  end.

Definition sort_samples (x y : array) : list (R * R) :=
  fold_right insert [] (combine x y).

(** [np.searchsorted(x, q)] on a sorted [x]: how many entries lie below [q]. *)
Definition searchsorted (x : array) (q : R) : nat :=
  length (filter (fun xi => Rlt_bool xi q) x).

(** The piecewise-linear evaluation of [interp1d], before the bounds check. *)
Definition call_linear (x y : array) (q : R) : R :=
  let hi := Nat.min (Nat.max (searchsorted x q) 1) (length x - 1) in
  let lo := (hi - 1)%nat in
  let slope := (nth hi y 0 - nth lo y 0) / (nth hi x 0 - nth lo x 0) in
  slope * (q - nth lo x 0) + nth lo y 0.

(** A query outside [[x[0], x[-1]]] gets [fill_value]. *)
Definition out_of_bounds (x : array) (q : R) : bool :=
  Rlt_bool q (hd 0 x) || Rlt_bool (last x 0) q.

End scipy.

Definition nonuniform_warning : string :=
  "Non-uniform time spacing detected. Time array may be resampled.".

(** ** The module [osipi._tissue] *)

Section Tissue.

(** The quadratic spline through sorted samples, evaluated at a query. *)
Variable spline : array -> array -> R -> R.

(** [exp_conv(T, t, a)] of [osipi._convolution]. *)
Variable exp_conv : R -> array -> array -> array.

(** What the object built by [interp1d] computes when called at [q]:
    [fill_value] outside the sampled range, the interpolant inside. *)
Definition interpolant (k : scipy.kind) (x y : array) (q : R) : R :=
  let s := scipy.sort_samples x y in
  let xs := map fst s in
  let ys := map snd s in
  if scipy.out_of_bounds xs q then 0
  else match k with
       | scipy.linear => scipy.call_linear xs ys q
       | scipy.quadratic => spline xs ys q
       end.

(** [interp1d(x, y, kind=k, bounds_error=False, fill_value=0)]: the
    constructor raises [ValueError] on samples of unequal length or on too
    few of them. *)
Definition interp1d (x y : array) (k : scipy.kind) : result (R -> R) :=
  if negb (length x =? length y)%nat then Raise ValueError
  else if (length x <? scipy.minval k)%nat then Raise ValueError
  else Ok (interpolant k x y).

(** [np.allclose(np.diff(t), np.diff(t)[0])]. *)
Definition uniform_spacing (t : array) : result bool :=
  d0 <- getitem (np.diff t) 0 ;;
  Ok (np.allclose (np.diff t) d0).

(** The block "Shift the AIF by the arterial delay time (if not zero)",
    which the source repeats in each branch of both models. *)
Definition shift_aif (t ca : array) (Ta : R) : result array :=
  if Req_dec_T Ta 0 then Ok ca
  else
    f <- interp1d t ca scipy.linear ;;
    Ok (zip_with Rmult
          (map (fun ti => if Rlt_dec Ta ti then 1 else 0) t)
          (map f (map (fun ti => ti - Ta) t))).

(** The series [(t > Ta) * L(t - Ta)], with [L] the linear interpolant of
    [ca] over [t], and the arterial series a model works with: [ca] itself
    when [Ta] is zero, the delayed one otherwise. *)
Definition delayed_aif (t ca : array) (Ta : R) : array :=
  zip_with Rmult
    (map (fun ti => if Rlt_dec Ta ti then 1 else 0) t)
    (map (fun ti => interpolant scipy.linear t ca (ti - Ta)) t).

Definition arterial_input (t ca : array) (Ta : R) : array :=
  if Req_dec_T Ta 0 then ca else delayed_aif t ca Ta.

(** [Ktrans * np.exp(-1 * kep * t)]. *)
Definition impulse_response (Ktrans kep : R) (t : array) : array :=
  map (fun ti => Ktrans * exp (-1 * kep * ti)) t.

(** [np.linspace(t[0], t[-1], int((t[-1] - t[0]) / dt))]; a zero [dt] makes
    the quotient infinite or NaN, which [int] refuses. *)
Definition resample_grid (t : array) (dt : R) : result array :=
  t0 <- getitem t 0 ;;
  tN <- getitem_last t ;;
  if Req_dec_T dt 0 then
    Raise (if Req_dec_T (tN - t0) 0 then ValueError else OverflowError)
  else np.linspace t0 tN (int ((tN - t0) / dt)).

Definition tofts (t ca : array) (Ktrans ve Ta : R)
    (discretization_method : string) : list string * result array :=
  match uniform_spacing t with
  | Raise e => ([], Raise e)
  | Ok uniform =>
    (if uniform then [] else [nonuniform_warning],
     if Rle_bool Ktrans 0 || Rle_bool ve 0 then Ok (scale 0 ca)
     else
       let Ktrans := Ktrans / 60 in
       if (discretization_method =? "exp")%string then
         ca <- shift_aif t ca Ta ;;
         Tc <- py_div ve Ktrans ;;
         Ok (scale ve (exp_conv Tc t ca))
       else
         kep <- py_div Ktrans ve ;;
         let imp := impulse_response Ktrans kep t in
         ca <- shift_aif t ca Ta ;;
         uniform <- uniform_spacing t ;;
         if uniform : bool then
           convolution <- np.convolve ca imp ;;
           t1 <- getitem t 1 ;;
           Ok (scale_r (firstn (length t) convolution) t1)
         else
           dt <- np.min (np.diff t) ;;
           t_resampled <- resample_grid t dt ;;
           ca_func <- interp1d t ca scipy.quadratic ;;
           imp_func <- interp1d t imp scipy.quadratic ;;
           let ca_resampled := map ca_func t_resampled in
           let imp_resampled := map imp_func t_resampled in
           convolution <- np.convolve ca_resampled imp_resampled ;;
           tr1 <- getitem t_resampled 1 ;;
           let ct_resampled :=
             scale_r (firstn (length t_resampled) convolution) tr1 in
           ct_func <- interp1d t_resampled ct_resampled scipy.quadratic ;;
           Ok (map ct_func t))
  end.

Definition extended_tofts (t ca : array) (Ktrans ve vp Ta : R)
    (discretization_method : string) : list string * result array :=
  match uniform_spacing t with
  | Raise e => ([], Raise e)
  | Ok uniform =>
    (if uniform then [] else [nonuniform_warning],
     if Rle_bool Ktrans 0 || Rle_bool ve 0 then Ok (scale vp ca)
     else
       let Ktrans := Ktrans / 60 in
       if (discretization_method =? "exp")%string then
         ca <- shift_aif t ca Ta ;;
         Tc <- py_div ve Ktrans ;;
         add (scale vp ca) (scale ve (exp_conv Tc t ca))
       else
         kep <- py_div Ktrans ve ;;
         let imp := impulse_response Ktrans kep t in
         ca <- shift_aif t ca Ta ;;
         uniform <- uniform_spacing t ;;
         if uniform : bool then
           convolution <- np.convolve ca imp ;;
           t1 <- getitem t 1 ;;
           add (scale_r (firstn (length t) convolution) t1) (scale vp ca)
         else
           dt <- np.min (np.diff t) ;;
           t_resampled <- resample_grid t dt ;;
           ca_func <- interp1d t ca scipy.quadratic ;;
           imp_func <- interp1d t imp scipy.quadratic ;;
           let ca_resampled := map ca_func t_resampled in
           let imp_resampled := map imp_func t_resampled in
           convolution <- np.convolve ca_resampled imp_resampled ;;
           tr1 <- getitem t_resampled 1 ;;
           ct_resampled <-
             add (scale_r (firstn (length t_resampled) convolution) tr1)
                 (scale vp ca_resampled) ;;
           ct_func <- interp1d t_resampled ct_resampled scipy.quadratic ;;
           Ok (map ct_func t))
  end.

End Tissue.

(** ** The parameters as Python floats

    The statements of [tofts] (lines 83-107) and of [extended_tofts] (lines
    248-274) that involve only the scalars [Ktrans] and [ve]: the guard, the
    unit conversion and the quotient of the branch taken, in binary64
    arithmetic.  Between the conversion and the quotient the source only
    shifts the arterial series, which leaves both scalars alone. *)

Module binary64.

Import PrimFloat.

(** Python's [x / y] on floats. *)
Definition py_div (x y : float) : result float :=
  if PrimFloat.eqb y 0 then Raise ZeroDivisionError
  else Ok (PrimFloat.div x y).

(** What the scalar code hands on: nothing in the degenerate branch, [Tc]
    in the branch of the exponential convolution, the converted [Ktrans]
    and [kep] in the branch of the numerical convolution. *)
Inductive rates : Type :=
| degenerate
| exponential (Tc : float)
| convolution (Ktrans kep : float).

Definition quotients (Ktrans ve : float) (discretization_method : string)
    : result rates :=
  if PrimFloat.leb Ktrans 0 || PrimFloat.leb ve 0 then Ok degenerate
  else
    let Ktrans := PrimFloat.div Ktrans 60 in
    if (discretization_method =? "exp")%string then
      Tc <- py_div ve Ktrans ;;
      Ok (exponential Tc)
    else
      kep <- py_div Ktrans ve ;;
      Ok (convolution Ktrans kep).

End binary64.

(** ** Instances of the abstract collaborators

    The models above are parametric in [spline] and [exp_conv]; the two
    definitions below give one admissible instance of each, so that the
    models can be run on concrete inputs. *)

(** A piecewise-parabolic interpolant through three neighbouring samples. *)
Definition parabola (xs ys : array) (q : R) : R :=
  let i := Nat.min (Nat.max (scipy.searchsorted xs q) 1) (length xs - 2) in
  let x0 := nth (i - 1) xs 0 in
  let x1 := nth i xs 0 in
  let x2 := nth (i + 1) xs 0 in
  nth (i - 1) ys 0 * ((q - x1) * (q - x2)) / ((x0 - x1) * (x0 - x2))
  + nth i ys 0 * ((q - x0) * (q - x2)) / ((x1 - x0) * (x1 - x2))
  + nth (i + 1) ys 0 * ((q - x0) * (q - x1)) / ((x2 - x0) * (x2 - x1)).

(** Modelled from the spec: [exp_conv] is defined in
    [osipi/_convolution.py], which is not among the sources.  The spec
    describes it as the continuous convolution of the input series with a
    normalised decaying exponential of time constant [T], aligned with the
    time grid; this is that convolution for the piecewise-linear input,
    advanced one grid interval at a time from the value [0] at [t[0]]. *)
Fixpoint exp_conv_steps (T f : R) (t a : array) : array :=
  match t, a with
  | t0 :: ((t1 :: _) as t'), a0 :: ((a1 :: _) as a') =>
      let x := (t1 - t0) / T in
      let E := exp (- x) in
      let f' := E * f + a0 * (1 - E) + (a1 - a0) / x * (x - (1 - E)) in
      f' :: exp_conv_steps T f' t' a'
  | _, _ => []
  end.

Definition exp_conv_model (T : R) (t a : array) : array :=
  match t with
  | [] => []
  | _ :: _ => 0 :: exp_conv_steps T 0 t a
  end.

(** ** The uniform-grid convolution as the specification words it

    "Computes the discrete convolution of the two series, truncates to the
    first N samples, and scales by dt", with [dt = t[1] - t[0]] the uniform
    step and the impulse response taken on the grid [t]. *)
Definition riemann_convolution (t ca : array) (Ktrans ve : R) : array :=
  let Ktrans := Ktrans / 60 in
  let imp := impulse_response Ktrans (Ktrans / ve) t in
  let dt := nth 1 t 0 - nth 0 t 0 in
  scale_r (firstn (length t) (np.conv_full ca imp)) dt.

(** ** The data model's invariant on time series *)

Definition strictly_increasing (t : array) : Prop :=
  Forall (fun d => 0 < d) (np.diff t).

(** ** Outcome predicates *)

(** The outcome is anything but a [ZeroDivisionError]. *)
Definition no_zero_division {A : Type} (r : result A) : Prop :=
  r <> Raise ZeroDivisionError.

(** ** Elementary facts about the primitives *)

Lemma Rle_bool_true (x y : R) : x <= y -> Rle_bool x y = true.
Proof. intros H. unfold Rle_bool. destruct (Rle_dec x y); [reflexivity | contradiction]. Qed.

Lemma Rle_bool_false (x y : R) : y < x -> Rle_bool x y = false.
Proof. intros H. unfold Rle_bool. destruct (Rle_dec x y); [lra | reflexivity]. Qed.

Lemma Rlt_bool_true (x y : R) : x < y -> Rlt_bool x y = true.
Proof. intros H. unfold Rlt_bool. destruct (Rlt_dec x y); [reflexivity | contradiction]. Qed.

Lemma Rlt_bool_false (x y : R) : y <= x -> Rlt_bool x y = false.
Proof. intros H. unfold Rlt_bool. destruct (Rlt_dec x y); [lra | reflexivity]. Qed.

(** The guard [Ktrans <= 0 or ve <= 0] of both models. *)
Lemma guard_degenerate (Ktrans ve : R) :
  Ktrans <= 0 \/ ve <= 0 -> Rle_bool Ktrans 0 || Rle_bool ve 0 = true.
Proof.
  intros [H | H].
  - now rewrite (Rle_bool_true _ _ H).
  - rewrite (Rle_bool_true ve 0 H). apply orb_true_r.
Qed.

Lemma guard_regular (Ktrans ve : R) :
  0 < Ktrans -> 0 < ve -> Rle_bool Ktrans 0 || Rle_bool ve 0 = false.
Proof.
  intros HK Hv. now rewrite (Rle_bool_false _ _ HK), (Rle_bool_false _ _ Hv).
Qed.

Lemma guard_false_inv (Ktrans ve : R) :
  Rle_bool Ktrans 0 || Rle_bool ve 0 = false -> 0 < Ktrans /\ 0 < ve.
Proof.
  intros H. apply orb_false_elim in H as [HK Hv].
  unfold Rle_bool in HK, Hv.
  destruct (Rle_dec Ktrans 0); [discriminate |].
  destruct (Rle_dec ve 0); [discriminate |]. lra.
Qed.

Lemma Ok_inj {A : Type} (a b : A) : Ok a = Ok b -> a = b.
Proof. congruence. Qed.

Lemma py_div_ok (x y : R) : y <> 0 -> py_div x y = Ok (x / y).
Proof. intros H. unfold py_div. destruct (Req_dec_T y 0); [contradiction | reflexivity]. Qed.

Lemma scale_length (c : R) (a : array) : length (scale c a) = length a.
Proof. apply length_map. Qed.

Lemma scale_r_length (a : array) (c : R) : length (scale_r a c) = length a.
Proof. apply length_map. Qed.

Lemma zip_with_length (f : R -> R -> R) (a b : array) :
  length (zip_with f a b) = Nat.min (length a) (length b).
Proof.
  revert b. induction a as [| x a IH]; intros [| y b]; simpl; auto.
Qed.

Lemma diff_length (a : array) : length (np.diff a) = (length a - 1)%nat.
Proof.
  induction a as [| x [| y a] IH]; simpl in *; auto.
  rewrite IH. lia.
Qed.

Lemma padd_length (a b : array) :
  length (np.padd a b) = Nat.max (length a) (length b).
Proof.
  revert b. induction a as [| x a IH]; intros [| y b]; simpl; auto.
Qed.

Lemma conv_full_length (a v : array) :
  a <> [] -> v <> [] ->
  length (np.conv_full a v) = (length a + length v - 1)%nat.
Proof.
  intros Ha Hv. induction a as [| x [| y a] IH]; [contradiction | |].
  - change (np.conv_full [x] v) with (scale x v).
    rewrite scale_length. simpl. lia.
  - change (np.conv_full (x :: y :: a) v)
      with (np.padd (scale x v) (0 :: np.conv_full (y :: a) v)).
    rewrite padd_length, scale_length.
    change (length (0 :: np.conv_full (y :: a) v))
      with (S (length (np.conv_full (y :: a) v))).
    rewrite IH by discriminate.
    destruct v as [| z v]; [contradiction |]. simpl length. lia.
Qed.

Lemma convolve_ok (a v : array) :
  a <> [] -> v <> [] -> np.convolve a v = Ok (np.conv_full a v).
Proof. destruct a, v; intros; try contradiction; reflexivity. Qed.

(** The grid test succeeds exactly on grids of two or more points. *)
Lemma uniform_spacing_ok (t : array) :
  (2 <= length t)%nat ->
  exists d0, getitem (np.diff t) 0 = Ok d0 /\
             uniform_spacing t = Ok (np.allclose (np.diff t) d0).
Proof.
  intros H. destruct t as [| x [| y t]]; simpl in H; try lia.
  exists (y - x). split; reflexivity.
Qed.

Lemma uniform_spacing_short (t : array) :
  (length t < 2)%nat -> uniform_spacing t = Raise IndexError.
Proof.
  intros H. destruct t as [| x [| y t]]; simpl in H; try lia; reflexivity.
Qed.

(** ** The primitives on small inputs *)

Ltac rbool :=
  repeat match goal with
         | |- context [Rlt_bool ?x ?y] =>
             first [ rewrite (Rlt_bool_true x y) by lra
                   | rewrite (Rlt_bool_false x y) by lra ]
         | |- context [Rle_bool ?x ?y] =>
             first [ rewrite (Rle_bool_true x y) by lra
                   | rewrite (Rle_bool_false x y) by lra ]
         end.

Example convolve_example :
  np.convolve [1; 2; 3] [0; 1; 1 / 2] = Ok [0; 1; 5 / 2; 4; 3 / 2].
Proof.
  cbn [np.convolve np.conv_full np.padd scale map].
  apply f_equal. repeat (apply (f_equal2 (@cons R)); [lra |]). reflexivity.
Qed.

(** On a strictly increasing grid the samples are already in order. *)
Lemma sort_samples_increasing (x y : array) :
  strictly_increasing x -> length y = length x ->
  scipy.sort_samples x y = combine x y.
Proof.
  unfold scipy.sort_samples. revert y.
  induction x as [| x0 x IH]; intros y Hinc Hlen; [reflexivity |].
  destruct y as [| y0 y]; [discriminate |].
  cbn [combine fold_right].
  assert (Hinc' : strictly_increasing x).
  { unfold strictly_increasing in *. destruct x as [| x1 x]; [constructor |].
    now inversion Hinc. }
  rewrite IH by (simpl in Hlen; auto with arith).
  destruct x as [| x1 x]; [reflexivity |].
  destruct y as [| y1 y]; [discriminate |].
  cbn [combine scipy.insert fst].
  unfold strictly_increasing in Hinc. cbn [np.diff] in Hinc.
  inversion Hinc as [| d ds Hd _].
  destruct (Rle_dec x0 x1); [reflexivity | lra].
Qed.

Example linear_interpolant_example :
  let L := interpolant parabola scipy.linear [0; 1; 2] [0; 10; 20] in
  L (1 / 2) = 5 /\ L 2 = 20 /\ L 3 = 0 /\ L (-1) = 0.
Proof.
  assert (Hs : scipy.sort_samples [0; 1; 2] [0; 10; 20]
               = [(0, 0); (1, 10); (2, 20)]).
  { apply sort_samples_increasing; [| reflexivity].
    unfold strictly_increasing. cbn [np.diff]. repeat constructor; lra. }
  unfold interpolant. rewrite Hs.
  unfold scipy.out_of_bounds, scipy.call_linear, scipy.searchsorted.
  cbn [map fst snd hd last filter].
  repeat split; rbool;
    cbn [orb filter length Nat.max Nat.min Nat.sub nth]; lra.
Qed.

(** A delay of one grid interval moves the series one sample to the right
    and zeroes the samples up to the delay. *)
Example delayed_aif_example :
  delayed_aif parabola [0; 30; 60] [1; 2; 3] 30 = [0; 0; 2].
Proof.
  assert (Hs : scipy.sort_samples [0; 30; 60] [1; 2; 3]
               = [(0, 1); (30, 2); (60, 3)]).
  { apply sort_samples_increasing; [| reflexivity].
    unfold strictly_increasing. cbn [np.diff]. repeat constructor; lra. }
  unfold delayed_aif, interpolant. rewrite Hs.
  unfold scipy.out_of_bounds, scipy.call_linear, scipy.searchsorted.
  cbn [map fst snd hd last filter zip_with].
  destruct (Rlt_dec 30 0); [lra |].
  destruct (Rlt_dec 30 30); [lra |].
  destruct (Rlt_dec 30 60); [| lra].
  rbool. cbn [orb filter length Nat.max Nat.min Nat.sub nth].
  repeat (apply (f_equal2 (@cons R)); [lra |]). reflexivity.
Qed.

(** ** Properties of [tofts] and [extended_tofts] *)

Section Properties.

Variable spline : array -> array -> R -> R.
Variable exp_conv : R -> array -> array -> array.

(** *** Degenerate parameters *)

Lemma scale_zero (a : array) : scale 0 a = repeat 0 (length a).
Proof.
  induction a as [| x a IH]; simpl; [reflexivity |].
  f_equal; [lra | exact IH].
Qed.

(** On a grid of fewer than two points the grid test itself fails. *)
Lemma tofts_short_grid (t ca : array) (Ktrans ve Ta : R) (m : string) :
  (length t < 2)%nat ->
  tofts spline exp_conv t ca Ktrans ve Ta m = ([], Raise IndexError).
Proof.
  intros H. unfold tofts. now rewrite (uniform_spacing_short t H).
Qed.

(** C2.  When [Ktrans <= 0] or [ve <= 0], on any time series (two points or
    more), whatever the arterial series, the delay and the discretization
    method: [tofts] returns the all-zero series of the length of [ca] and
    [extended_tofts] returns [vp * ca] elementwise; neither raises. *)
Theorem degenerate_parameters
    (t ca : array) (Ktrans ve vp Ta : R) (m : string) :
  (2 <= length t)%nat ->
  Ktrans <= 0 \/ ve <= 0 ->
  snd (tofts spline exp_conv t ca Ktrans ve Ta m) = Ok (repeat 0 (length ca)) /\
  snd (extended_tofts spline exp_conv t ca Ktrans ve vp Ta m)
    = Ok (map (fun c => vp * c) ca).
Proof.
  intros Hlen Hdeg.
  destruct (uniform_spacing_ok t Hlen) as (d0 & _ & Hu).
  unfold tofts, extended_tofts. rewrite Hu. cbn [snd].
  rewrite (guard_degenerate _ _ Hdeg), scale_zero. split; reflexivity.
Qed.

(** *** The discretization method *)

(** C10.  Every value of [discretization_method] other than the string
    ["exp"] makes both models behave exactly as with ["conv"]: same warnings,
    same result, and in particular no error for an unknown method. *)
Theorem unknown_method_is_conv
    (t ca : array) (Ktrans ve vp Ta : R) (m : string) :
  m <> "exp"%string ->
  tofts spline exp_conv t ca Ktrans ve Ta m
    = tofts spline exp_conv t ca Ktrans ve Ta "conv" /\
  extended_tofts spline exp_conv t ca Ktrans ve vp Ta m
    = extended_tofts spline exp_conv t ca Ktrans ve vp Ta "conv".
Proof.
  intros Hm. apply String.eqb_neq in Hm.
  unfold tofts, extended_tofts. rewrite Hm.
  change ("conv" =? "exp")%string with false. split; reflexivity.
Qed.

(** *** Division by zero *)

Lemma nzd_ok {A : Type} (a : A) : no_zero_division (Ok a).
Proof. discriminate. Qed.

Lemma nzd_bind {A B : Type} (m : result A) (k : A -> result B) :
  no_zero_division m ->
  (forall a, m = Ok a -> no_zero_division (k a)) ->
  no_zero_division (bind m k).
Proof.
  intros Hm Hk. destruct m as [a | e]; simpl.
  - now apply Hk.
  - intros Heq. apply Hm. now inversion Heq.
Qed.

Lemma nzd_getitem (a : array) (i : nat) : no_zero_division (getitem a i).
Proof. unfold getitem. destruct (nth_error a i); discriminate. Qed.

Lemma nzd_getitem_last (a : array) : no_zero_division (getitem_last a).
Proof. destruct a; discriminate. Qed.

Lemma nzd_interp1d (x y : array) (k : scipy.kind) :
  no_zero_division (interp1d spline x y k).
Proof.
  unfold interp1d.
  destruct (negb _); [discriminate |]. destruct (_ <? _)%nat; discriminate.
Qed.

Lemma nzd_shift_aif (t ca : array) (Ta : R) :
  no_zero_division (shift_aif spline t ca Ta).
Proof.
  unfold shift_aif. destruct (Req_dec_T Ta 0); [apply nzd_ok |].
  apply nzd_bind; [apply nzd_interp1d | intros; apply nzd_ok].
Qed.

Lemma nzd_uniform_spacing (t : array) : no_zero_division (uniform_spacing t).
Proof.
  unfold uniform_spacing.
  apply nzd_bind; [apply nzd_getitem | intros; apply nzd_ok].
Qed.

Lemma nzd_convolve (a v : array) : no_zero_division (np.convolve a v).
Proof. destruct a, v; discriminate. Qed.

Lemma nzd_min (a : array) : no_zero_division (np.min a).
Proof. destruct a; discriminate. Qed.

Lemma nzd_linspace (a b : R) (n : Z) : no_zero_division (np.linspace a b n).
Proof.
  unfold np.linspace. destruct (n <? 0)%Z; [discriminate |].
  destruct (Z.to_nat n) as [| [| k]]; discriminate.
Qed.

Lemma nzd_resample_grid (t : array) (dt : R) :
  no_zero_division (resample_grid t dt).
Proof.
  unfold resample_grid.
  apply nzd_bind; [apply nzd_getitem | intros t0 _].
  apply nzd_bind; [apply nzd_getitem_last | intros tN _].
  destruct (Req_dec_T dt 0); [| apply nzd_linspace].
  destruct (Req_dec_T (tN - t0) 0); discriminate.
Qed.

Lemma nzd_add (a b : array) : no_zero_division (add a b).
Proof.
  unfold add. repeat (destruct (_ =? _)%nat; [discriminate |]). discriminate.
Qed.

(** Inside the guard both quotients have a non-zero divisor. *)
Lemma guarded_divisions (Ktrans ve : R) :
  Rle_bool Ktrans 0 || Rle_bool ve 0 = false ->
  py_div ve (Ktrans / 60) = Ok (ve / (Ktrans / 60)) /\
  py_div (Ktrans / 60) ve = Ok (Ktrans / 60 / ve).
Proof.
  intros H. apply guard_false_inv in H as [HK Hv].
  split; apply py_div_ok; lra.
Qed.

Ltac nzd_step :=
  first
    [ apply nzd_ok
    | apply nzd_add
    | apply nzd_bind;
      [ first [ apply nzd_shift_aif | apply nzd_uniform_spacing
              | apply nzd_convolve | apply nzd_getitem | apply nzd_min
              | apply nzd_resample_grid | apply nzd_interp1d
              | apply nzd_add ]
      | intros ? _ ] ].

(** Over the reals the guard is enough: the quotients [Tc = ve / Ktrans]
    and [kep = Ktrans / ve] are the only divisions of the two models that
    can raise, they sit behind [Ktrans > 0 and ve > 0], and dividing a
    positive real by 60 leaves it positive.  Binary64 is less kind, see
    [conversion_underflows_to_zero] below. *)
Theorem division_by_zero_unreachable
    (t ca : array) (Ktrans ve vp Ta : R) (m : string) :
  snd (tofts spline exp_conv t ca Ktrans ve Ta m) <> Raise ZeroDivisionError /\
  snd (extended_tofts spline exp_conv t ca Ktrans ve vp Ta m)
    <> Raise ZeroDivisionError.
Proof.
  unfold tofts, extended_tofts.
  destruct (uniform_spacing t) as [u | e] eqn:Hu; cbn [snd].
  2:{ pose proof (nzd_uniform_spacing t) as H. rewrite Hu in H.
      split; intros Heq; apply H; now inversion Heq. }
  destruct (Rle_bool Ktrans 0 || Rle_bool ve 0) eqn:Hg; [split; discriminate |].
  destruct (guarded_divisions _ _ Hg) as [HTc Hkep].
  rewrite HTc, Hkep. cbn [bind].
  destruct (m =? "exp")%string.
  - split; repeat nzd_step.
  - split.
    + nzd_step. destruct u; repeat nzd_step.
    + nzd_step. destruct u; repeat nzd_step.
Qed.

Section Binary64Quotients.

Import PrimFloat.

(** Ordinary parameters pass the scalar code in either branch, and a
    [Ktrans] that underflows is harmless in the convolution branch, where it
    is the dividend. *)
Example quotients_of_ordinary_parameters :
  binary64.quotients 0.5 0.25 "exp"
    = Ok (binary64.exponential (PrimFloat.div 0.25 (PrimFloat.div 0.5 60))) /\
  binary64.quotients 0.5 0.25 "conv"
    = Ok (binary64.convolution (PrimFloat.div 0.5 60)
            (PrimFloat.div (PrimFloat.div 0.5 60) 0.25)) /\
  binary64.quotients 0x1p-1074 0.25 "conv" = Ok (binary64.convolution 0 0) /\
  binary64.quotients 0 0.25 "exp" = Ok binary64.degenerate.
Proof. repeat split; reflexivity. Qed.

(** C8 (a defect of the code).  The guard tests [Ktrans] before the unit
    conversion and the quotient [Tc = ve / Ktrans] divides by it after.  For
    the smallest positive binary64 number, [Ktrans = 2^-1074] (written
    [5e-324] in Python), and [ve = 0.25]: the guard lets the parameters
    through, [Ktrans / 60] rounds to zero, and with the method ["exp"] the
    quotient raises [ZeroDivisionError]. *)
Theorem conversion_underflows_to_zero :
  PrimFloat.ltb 0 0x1p-1074 = true /\
  PrimFloat.leb 0x1p-1074 0 || PrimFloat.leb 0.25 0 = false /\
  PrimFloat.eqb (PrimFloat.div 0x1p-1074 60) 0 = true /\
  binary64.quotients 0x1p-1074 0.25 "exp" = Raise ZeroDivisionError.
Proof. repeat split; reflexivity. Qed.

End Binary64Quotients.

(** *** The arterial delay *)

Lemma uniform_spacing_inv (t : array) (u : bool) :
  uniform_spacing t = Ok u -> (2 <= length t)%nat.
Proof.
  intros H. destruct (le_lt_dec 2 (length t)) as [Hle | Hlt]; [exact Hle |].
  rewrite (uniform_spacing_short t Hlt) in H. discriminate.
Qed.

Lemma interp1d_ok (x y : array) (k : scipy.kind) :
  length y = length x -> (scipy.minval k <= length x)%nat ->
  interp1d spline x y k = Ok (interpolant spline k x y).
Proof.
  intros Hxy Hmin. unfold interp1d.
  rewrite Hxy, Nat.eqb_refl. cbn [negb].
  destruct (Nat.ltb_spec (length x) (scipy.minval k)); [lia | reflexivity].
Qed.

Lemma shift_aif_ok (t ca : array) (Ta : R) :
  length ca = length t -> (1 <= length t)%nat ->
  shift_aif spline t ca Ta = Ok (arterial_input spline t ca Ta).
Proof.
  intros Hlen Hpos. unfold shift_aif, arterial_input.
  destruct (Req_dec_T Ta 0); [reflexivity |].
  rewrite (interp1d_ok t ca scipy.linear Hlen Hpos). cbn [bind].
  unfold delayed_aif. now rewrite map_map.
Qed.

Lemma shift_aif_zero (t ca : array) : shift_aif spline t ca 0 = Ok ca.
Proof. unfold shift_aif. destruct (Req_dec_T 0 0); [reflexivity | contradiction]. Qed.

Lemma delayed_aif_length (t ca : array) (Ta : R) :
  length (delayed_aif spline t ca Ta) = length t.
Proof.
  unfold delayed_aif. rewrite zip_with_length, !length_map. apply Nat.min_id.
Qed.

Lemma arterial_input_length (t ca : array) (Ta : R) :
  length ca = length t -> length (arterial_input spline t ca Ta) = length t.
Proof.
  intros H. unfold arterial_input.
  destruct (Req_dec_T Ta 0); [exact H | apply delayed_aif_length].
Qed.

Lemma zip_with_map_nth (f g : R -> R) (t : array) (i : nat) :
  (i < length t)%nat ->
  nth i (zip_with Rmult (map f t) (map g t)) 0 = f (nth i t 0) * g (nth i t 0).
Proof.
  revert i. induction t as [| x t IH]; intros i Hi; simpl in Hi; [lia |].
  destruct i as [| i]; simpl; [reflexivity | apply IH; lia].
Qed.



(** *** The exponential-convolution path *)


(** *** The extended model without plasma *)

Lemma zip_with_plus_scale0_r (a b : array) :
  length a = length b -> zip_with Rplus a (scale 0 b) = a.
Proof.
  revert b. induction a as [| x a IH]; intros [| y b] H; simpl in *;
    try reflexivity; try discriminate.
  f_equal; [lra | apply IH; lia].
Qed.

Lemma zip_with_plus_scale0_l (a b : array) :
  length a = length b -> zip_with Rplus (scale 0 a) b = b.
Proof.
  revert b. induction a as [| x a IH]; intros [| y b] H; simpl in *;
    try reflexivity; try discriminate.
  f_equal; [lra | apply IH; lia].
Qed.

Lemma add_scale0_r (a b : array) :
  length a = length b -> add a (scale 0 b) = Ok a.
Proof.
  intros H. unfold add. rewrite scale_length, H, Nat.eqb_refl.
  now rewrite zip_with_plus_scale0_r.
Qed.

Lemma add_scale0_l (a b : array) :
  length a = length b -> add (scale 0 a) b = Ok b.
Proof.
  intros H. unfold add. rewrite scale_length, H, Nat.eqb_refl.
  now rewrite zip_with_plus_scale0_l.
Qed.

Lemma convolve_inv (a v c : array) :
  np.convolve a v = Ok c -> a <> [] /\ v <> [] /\ c = np.conv_full a v.
Proof.
  destruct a as [| x a], v as [| y v]; simpl; intros H; try discriminate.
  inversion H. repeat split; discriminate.
Qed.

(** The window [convolution[0 : n]] is full when [a] has [n] entries. *)
Lemma window_length (a v c : array) :
  np.convolve a v = Ok c -> length (firstn (length a) c) = length a.
Proof.
  intros H. apply convolve_inv in H as (Ha & Hv & ->).
  rewrite length_firstn, conv_full_length by assumption.
  destruct v; [contradiction |]. simpl length. lia.
Qed.

(** C7.  With [Ktrans > 0] and [ve > 0], on a series [ca] as long as [t] and
    with an [exp_conv] that answers on the time grid, [extended_tofts] with
    [vp = 0] and [tofts] have the same outcome, sample for sample, for every
    delay, every method and every grid. *)
Theorem extended_without_plasma
    (t ca : array) (Ktrans ve Ta : R) (m : string) :
  (forall T t a, length a = length t -> length (exp_conv T t a) = length t) ->
  length ca = length t ->
  0 < Ktrans -> 0 < ve ->
  extended_tofts spline exp_conv t ca Ktrans ve 0 Ta m
    = tofts spline exp_conv t ca Ktrans ve Ta m.
Proof.
  intros Hexp Hca HK Hve.
  unfold extended_tofts, tofts.
  destruct (uniform_spacing t) as [u | e] eqn:Hu; [| reflexivity].
  pose proof (uniform_spacing_inv t u Hu) as Hlen.
  f_equal. rewrite (guard_regular _ _ HK Hve).
  destruct (guarded_divisions Ktrans ve (guard_regular _ _ HK Hve)) as [HTc Hkep].
  rewrite HTc, Hkep, (shift_aif_ok t ca Ta Hca) by lia. cbn [bind].
  pose proof (arterial_input_length t ca Ta Hca) as Hca'.
  set (ca' := arterial_input spline t ca Ta) in *.
  destruct (m =? "exp")%string.
  - apply add_scale0_l. now rewrite scale_length, Hexp.
  - destruct u.
    + destruct (np.convolve ca' _) as [c | e] eqn:Hc; [| reflexivity].
      cbn [bind]. destruct (getitem t 1) as [t1 | e]; [| reflexivity].
      cbn [bind]. apply add_scale0_r.
      apply window_length in Hc. rewrite Hca' in Hc.
      now rewrite scale_r_length, Hca'.
    + destruct (np.min (np.diff t)) as [dt | e]; [| reflexivity]. cbn [bind].
      destruct (resample_grid t dt) as [tr | e]; [| reflexivity]. cbn [bind].
      destruct (interp1d spline t ca' scipy.quadratic) as [ca_func | e];
        [| reflexivity]. cbn [bind].
      destruct (interp1d spline t _ scipy.quadratic) as [imp_func | e];
        [| reflexivity]. cbn [bind].
      destruct (np.convolve _ _) as [c | e] eqn:Hc; [| reflexivity].
      cbn [bind]. destruct (getitem tr 1) as [tr1 | e]; [| reflexivity].
      cbn [bind]. rewrite add_scale0_r; [reflexivity |].
      apply window_length in Hc. rewrite length_map in Hc.
      now rewrite scale_r_length, length_map.
Qed.

(** *** The convolution path on a uniform grid *)

Lemma allclose_exact (a : array) (b : R) :
  (forall x, In x a -> x = b) -> np.allclose a b = true.
Proof.
  intros H. unfold np.allclose. apply forallb_forall. intros x Hx.
  rewrite (H x Hx). apply Rle_bool_true.
  replace (b - b) with 0 by lra. rewrite Rabs_R0.
  pose proof (Rabs_pos b). unfold np.atol, np.rtol. nra.
Qed.

Lemma impulse_response_length (K kep : R) (t : array) :
  length (impulse_response K kep t) = length t.
Proof. apply length_map. Qed.

Lemma nonempty_of_length (a : array) : (1 <= length a)%nat -> a <> [].
Proof. destruct a; simpl; [lia | discriminate]. Qed.

Lemma getitem_nth (a : array) (i : nat) :
  (i < length a)%nat -> getitem a i = Ok (nth i a 0).
Proof.
  intros H. unfold getitem.
  now rewrite (nth_error_nth' a 0 H).
Qed.

(** What the code computes on a uniform grid with the convolution method:
    the truncated convolution times [t[1]]. *)
Lemma conv_uniform_code
    (t ca : array) (Ktrans ve vp Ta : R) (m : string) :
  uniform_spacing t = Ok true ->
  length ca = length t ->
  0 < Ktrans -> 0 < ve ->
  m <> "exp"%string ->
  let ca' := arterial_input spline t ca Ta in
  let imp := impulse_response (Ktrans / 60) (Ktrans / 60 / ve) t in
  let ct := scale_r (firstn (length t) (np.conv_full ca' imp)) (nth 1 t 0) in
  tofts spline exp_conv t ca Ktrans ve Ta m = ([], Ok ct) /\
  extended_tofts spline exp_conv t ca Ktrans ve vp Ta m
    = ([], add ct (scale vp ca')).
Proof.
  intros Hu Hca HK Hve Hm ca' imp ct.
  pose proof (uniform_spacing_inv t true Hu) as Hlen.
  apply String.eqb_neq in Hm.
  destruct (guarded_divisions Ktrans ve (guard_regular _ _ HK Hve)) as [_ Hkep].
  assert (Hconv : np.convolve ca' imp = Ok (np.conv_full ca' imp)).
  { apply convolve_ok; apply nonempty_of_length.
    - unfold ca'. rewrite arterial_input_length by exact Hca. lia.
    - unfold imp. rewrite impulse_response_length. lia. }
  unfold tofts, extended_tofts.
  rewrite Hu, (guard_regular _ _ HK Hve), Hm, Hkep. cbn [bind].
  rewrite (shift_aif_ok t ca Ta Hca) by lia. cbn [bind].
  fold ca' imp. rewrite Hconv. cbn [bind].
  rewrite (getitem_nth t 1) by lia. cbn [bind]. split; reflexivity.
Qed.

(** On a uniform grid that starts at [0], [t[1]] is the step, and the code
    computes the convolution as the specification words it. *)
Lemma conv_uniform_from_origin
    (t ca : array) (Ktrans ve Ta : R) (m : string) :
  uniform_spacing t = Ok true ->
  length ca = length t ->
  0 < Ktrans -> 0 < ve ->
  m <> "exp"%string ->
  nth 0 t 0 = 0 ->
  snd (tofts spline exp_conv t ca Ktrans ve Ta m)
    = Ok (riemann_convolution t (arterial_input spline t ca Ta) Ktrans ve).
Proof.
  intros Hu Hca HK Hve Hm H0.
  destruct (conv_uniform_code t ca Ktrans ve 0 Ta m Hu Hca HK Hve Hm) as [-> _].
  cbn [snd]. unfold riemann_convolution. rewrite H0.
  do 2 f_equal. lra.
Qed.

(** C1 (a defect of the code).  On the uniform grid [t = [1; 2; 3]] with
    [ca = [1; 1; 1]], [Ktrans = 60], [ve = 1], [Ta = 0] and the method
    ["conv"], both models scale the truncated convolution by [t[1] = 2], not
    by the step [t[1] - t[0] = 1]: their results are not the convolution
    scaled by the step. *)
Theorem conv_scaled_by_second_time_point :
  let t := [1; 2; 3] in
  let ca := [1; 1; 1] in
  let imp := impulse_response (60 / 60) (60 / 60 / 1) t in
  uniform_spacing t = Ok true /\
  snd (tofts spline exp_conv t ca 60 1 0 "conv")
    = Ok (scale_r (firstn 3 (np.conv_full ca imp)) 2) /\
  snd (tofts spline exp_conv t ca 60 1 0 "conv")
    <> Ok (riemann_convolution t ca 60 1) /\
  snd (extended_tofts spline exp_conv t ca 60 1 0 0 "conv")
    = Ok (scale_r (firstn 3 (np.conv_full ca imp)) 2) /\
  snd (extended_tofts spline exp_conv t ca 60 1 0 0 "conv")
    <> Ok (riemann_convolution t ca 60 1).
Proof.
  intros t ca imp.
  assert (Hu : uniform_spacing t = Ok true).
  { unfold uniform_spacing, t. cbn [np.diff getitem nth_error bind].
    f_equal. apply allclose_exact. intros x [<- | [<- | []]]; lra. }
  assert (HK : 0 < 60) by lra. assert (Hve : 0 < 1) by lra.
  assert (Hm : "conv"%string <> "exp"%string) by discriminate.
  destruct (conv_uniform_code t ca 60 1 0 0 "conv" Hu eq_refl HK Hve Hm)
    as [Ht He].
  assert (Hin : arterial_input spline t ca 0 = ca).
  { unfold arterial_input. destruct (Req_dec_T 0 0); [reflexivity | contradiction]. }
  rewrite Hin in Ht, He. rewrite Ht, He. cbn [snd].
  assert (Hne : Ok (scale_r (firstn 3 (np.conv_full ca imp)) 2)
                <> Ok (riemann_convolution t ca 60 1)).
  { unfold riemann_convolution. fold imp.
    unfold imp, impulse_response, t, ca.
    cbn [map np.conv_full np.padd scale scale_r firstn length nth].
    intros H. injection H as H _ _.
    pose proof (exp_pos (-1 * (60 / 60 / 1) * 1)). nra. }
  repeat split; try assumption; try reflexivity.
  - rewrite add_scale0_r; [reflexivity |].
    rewrite scale_r_length, length_firstn, conv_full_length by discriminate.
    reflexivity.
  - rewrite add_scale0_r; [exact Hne |].
    rewrite scale_r_length, length_firstn, conv_full_length by discriminate.
    reflexivity.
Qed.

(** *** The resampled grid *)

(** Equality of two explicit arrays, entry by entry. *)
Ltac list_lra :=
  try apply (f_equal (@Ok array));
  repeat (apply (f_equal2 (@cons R)); [lra |]);
  reflexivity.

Lemma int_floor (x : R) (z : Z) :
  0 <= x -> IZR z <= x < IZR z + 1 -> int x = z.
Proof.
  intros H0 Hz. unfold int.
  destruct (Rle_dec 0 x); [| contradiction]. now apply Zfloor_eq.
Qed.

Lemma linspace_length (a b : R) (n : Z) (g : array) :
  np.linspace a b n = Ok g -> length g = Z.to_nat n.
Proof.
  unfold np.linspace. destruct (n <? 0)%Z; [discriminate |].
  destruct (Z.to_nat n) as [| [| k]]; intros H; apply Ok_inj in H; subst g;
    try reflexivity.
  rewrite length_app, length_map, length_seq. simpl. lia.
Qed.

Lemma linspace_ok (a b : R) (n : Z) :
  (0 <= n)%Z -> exists g, np.linspace a b n = Ok g.
Proof.
  intros H. unfold np.linspace.
  destruct (Z.ltb_spec n 0); [lia |].
  destruct (Z.to_nat n) as [| [| k]]; eexists; reflexivity.
Qed.

(** The points of [np.linspace(a, b, n)] are [a + i * (b - a) / (n - 1)]. *)
Lemma linspace_nth (a b : R) (n : Z) (g : array) (i : nat) :
  np.linspace a b n = Ok g ->
  (2 <= n)%Z -> (i < Z.to_nat n)%nat ->
  nth i g 0 = a + INR i * ((b - a) / IZR (n - 1)).
Proof.
  unfold np.linspace. intros H Hn Hi.
  destruct (Z.ltb_spec n 0); [lia |].
  destruct (Z.to_nat n) as [| [| k]] eqn:Hk; try lia.
  apply Ok_inj in H. subst g.
  destruct (Nat.eq_dec i (S k)) as [-> | Hne].
  - rewrite app_nth2; rewrite length_map, length_seq; [| lia].
    rewrite Nat.sub_diag. cbn [nth].
    assert (HZ : IZR (n - 1) = INR (S k)).
    { rewrite INR_IZR_INZ. f_equal. lia. }
    rewrite HZ. pose proof (pos_INR k). rewrite S_INR in *. field. lra.
  - rewrite app_nth1 by (rewrite length_map, length_seq; lia).
    rewrite (nth_indep _ 0 (a + INR 0 * ((b - a) / IZR (n - 1))))
      by (rewrite length_map, length_seq; lia).
    rewrite (map_nth (fun j => a + INR j * ((b - a) / IZR (n - 1)))).
    rewrite seq_nth by lia. reflexivity.
Qed.

(** The count [int((t[-1] - t[0]) / dt)] is one short of what a step of
    [dt] needs: the step of the resampled grid always exceeds [dt]. *)
Lemma resample_step_exceeds_dt (range dt : R) :
  0 < dt -> 2 * dt <= range ->
  let n := int (range / dt) in
  (2 <= n)%Z /\ dt < range / IZR (n - 1).
Proof.
  intros Hdt Hr n.
  assert (Hx : 2 <= range / dt).
  { apply (Rmult_le_reg_r dt); [exact Hdt |]. field_simplify; lra. }
  assert (Hn : n = Zfloor (range / dt)).
  { unfold n, int. destruct (Rle_dec 0 (range / dt)); [reflexivity | lra]. }
  pose proof (Zfloor_bound (range / dt)) as [Hlo Hhi].
  pose proof (Zfloor_lub 2 (range / dt) Hx) as H2.
  rewrite <- Hn in *. split; [exact H2 |].
  rewrite minus_IZR. apply IZR_le in H2.
  assert (Hpos : 0 < IZR n - 1) by lra.
  apply (Rmult_lt_reg_r (IZR n - 1)); [exact Hpos |].
  replace (range / (IZR n - 1) * (IZR n - 1)) with (range / dt * dt)
    by (field; lra).
  apply Rlt_le_trans with (range / dt * dt); [| lra].
  rewrite (Rmult_comm dt). apply Rmult_lt_compat_r; lra.
Qed.

(** C5 (a defect of the code).  On the grid [t = [0; 1; 3]] the minimum
    spacing is [1] and the resampled grid is
    [np.linspace(0, 3, 3) = [0; 3/2; 3]]: uniform, from [t[0]] to [t[-1]],
    with [floor((t[-1] - t[0]) / dt_min)] points, but its step is [3/2], not
    [dt_min = 1]. *)
Theorem resampled_step_is_not_dt_min :
  let t := [0; 1; 3] in
  np.min (np.diff t) = Ok 1 /\
  resample_grid t 1 = Ok [0; 3 / 2; 3] /\
  exists g, resample_grid t 1 = Ok g /\ nth 1 g 0 - nth 0 g 0 <> 1.
Proof.
  intros t.
  assert (Hg : resample_grid t 1 = Ok [0; 3 / 2; 3]).
  { unfold resample_grid, t. cbn [getitem nth_error getitem_last last bind].
    destruct (Req_dec_T 1 0); [lra |].
    rewrite (int_floor ((3 - 0) / 1) 3) by lra.
    unfold np.linspace.
    change (3 <? 0)%Z with false. change (Z.to_nat 3) with 3%nat.
    change (3 - 1)%Z with 2%Z. cbn [seq map app INR]. list_lra. }
  repeat split.
  - unfold t. cbn [np.diff np.min fold_left]. f_equal.
    unfold Rmin. destruct (Rle_dec (1 - 0) (3 - 1)); lra.
  - exact Hg.
  - exists [0; 3 / 2; 3]. split; [exact Hg |]. cbn [nth]. lra.
Qed.

(** *** The convolution path on a non-uniform grid *)

Lemma nonuniform_needs_three (t : array) :
  uniform_spacing t = Ok false -> (3 <= length t)%nat.
Proof.
  intros Hu. pose proof (uniform_spacing_inv t false Hu) as Hlen.
  destruct t as [| x [| y [| z t]]]; simpl in *; try lia.
  unfold uniform_spacing in Hu. cbn [np.diff getitem nth_error bind] in Hu.
  rewrite allclose_exact in Hu; [discriminate |].
  intros d [<- | []]. reflexivity.
Qed.

Lemma interp1d_too_few (x y : array) (k : scipy.kind) :
  (length x < scipy.minval k)%nat -> interp1d spline x y k = Raise ValueError.
Proof.
  intros H. unfold interp1d. destruct (negb _); [reflexivity |].
  destruct (Nat.ltb_spec (length x) (scipy.minval k)); [reflexivity | lia].
Qed.

Lemma add_same_length (a b : array) :
  length a = length b -> add a b = Ok (zip_with Rplus a b).
Proof. intros H. unfold add. now rewrite H, Nat.eqb_refl. Qed.

(** Both models warn exactly when the grid test fails. *)
Lemma warning_iff_nonuniform
    (t ca : array) (Ktrans ve vp Ta : R) (m : string) (u : bool) :
  uniform_spacing t = Ok u ->
  fst (tofts spline exp_conv t ca Ktrans ve Ta m)
    = (if u then [] else [nonuniform_warning]) /\
  fst (extended_tofts spline exp_conv t ca Ktrans ve vp Ta m)
    = (if u then [] else [nonuniform_warning]).
Proof.
  intros Hu. unfold tofts, extended_tofts. rewrite Hu. split; reflexivity.
Qed.

(** The non-uniform branch up to the resampled series: what is left of both
    models once the grid test, the guard, the method and the shift are
    settled. *)
Lemma conv_nonuniform_unfold
    (t ca : array) (Ktrans ve vp Ta : R) (m : string) (dt : R) (tr : array) :
  uniform_spacing t = Ok false ->
  length ca = length t ->
  0 < Ktrans -> 0 < ve ->
  m <> "exp"%string ->
  np.min (np.diff t) = Ok dt ->
  resample_grid t dt = Ok tr ->
  let ca' := arterial_input spline t ca Ta in
  let imp := impulse_response (Ktrans / 60) (Ktrans / 60 / ve) t in
  let ca_resampled := map (interpolant spline scipy.quadratic t ca') tr in
  let imp_resampled := map (interpolant spline scipy.quadratic t imp) tr in
  tofts spline exp_conv t ca Ktrans ve Ta m
    = ([nonuniform_warning],
       convolution <- np.convolve ca_resampled imp_resampled ;;
       tr1 <- getitem tr 1 ;;
       ct_func <- interp1d spline tr
                    (scale_r (firstn (length tr) convolution) tr1)
                    scipy.quadratic ;;
       Ok (map ct_func t)) /\
  extended_tofts spline exp_conv t ca Ktrans ve vp Ta m
    = ([nonuniform_warning],
       convolution <- np.convolve ca_resampled imp_resampled ;;
       tr1 <- getitem tr 1 ;;
       ct_resampled <- add (scale_r (firstn (length tr) convolution) tr1)
                           (scale vp ca_resampled) ;;
       ct_func <- interp1d spline tr ct_resampled scipy.quadratic ;;
       Ok (map ct_func t)).
Proof.
  intros Hu Hca HK Hve Hm Hmin Hgrid ca' imp ca_resampled imp_resampled.
  pose proof (nonuniform_needs_three t Hu) as Hlen.
  apply String.eqb_neq in Hm.
  destruct (guarded_divisions Ktrans ve (guard_regular _ _ HK Hve)) as [_ Hkep].
  unfold tofts, extended_tofts.
  rewrite Hu, (guard_regular _ _ HK Hve), Hm, Hkep. cbn [bind].
  rewrite (shift_aif_ok t ca Ta Hca) by lia. cbn [bind].
  rewrite Hmin. cbn [bind]. rewrite Hgrid. cbn [bind].
  fold ca' imp.
  rewrite (interp1d_ok t ca' scipy.quadratic)
    by (try exact Hlen; unfold ca'; now apply arterial_input_length).
  cbn [bind].
  rewrite (interp1d_ok t imp scipy.quadratic)
    by (try exact Hlen; apply impulse_response_length).
  cbn [bind]. split; reflexivity.
Qed.

(** A resampled grid of two points is too short for the quadratic
    interpolant that restores the original grid: both models raise. *)
Lemma conv_nonuniform_two_points
    (t ca : array) (Ktrans ve vp Ta : R) (m : string) (dt : R) (tr : array) :
  uniform_spacing t = Ok false ->
  length ca = length t ->
  0 < Ktrans -> 0 < ve ->
  m <> "exp"%string ->
  np.min (np.diff t) = Ok dt ->
  resample_grid t dt = Ok tr ->
  length tr = 2%nat ->
  tofts spline exp_conv t ca Ktrans ve Ta m
    = ([nonuniform_warning], Raise ValueError) /\
  extended_tofts spline exp_conv t ca Ktrans ve vp Ta m
    = ([nonuniform_warning], Raise ValueError).
Proof.
  intros Hu Hca HK Hve Hm Hmin Hgrid Htr.
  destruct (conv_nonuniform_unfold t ca Ktrans ve vp Ta m dt tr
              Hu Hca HK Hve Hm Hmin Hgrid) as [-> ->].
  destruct tr as [| a [| b [| c tr]]]; try discriminate.
  cbn [map np.convolve bind getitem nth_error].
  split.
  - rewrite interp1d_too_few by (simpl; lia). reflexivity.
  - rewrite add_same_length.
    + cbn [bind]. rewrite interp1d_too_few by (simpl; lia). reflexivity.
    + now rewrite scale_r_length, scale_length, length_firstn,
        conv_full_length by discriminate.
Qed.

(** With three resampled points or more both models return a series as long
    as [t]. *)
Lemma conv_nonuniform_returns
    (t ca : array) (Ktrans ve vp Ta : R) (m : string) (dt : R) (tr : array) :
  uniform_spacing t = Ok false ->
  length ca = length t ->
  0 < Ktrans -> 0 < ve ->
  m <> "exp"%string ->
  np.min (np.diff t) = Ok dt ->
  resample_grid t dt = Ok tr ->
  (3 <= length tr)%nat ->
  exists ct ct',
    tofts spline exp_conv t ca Ktrans ve Ta m = ([nonuniform_warning], Ok ct) /\
    extended_tofts spline exp_conv t ca Ktrans ve vp Ta m
      = ([nonuniform_warning], Ok ct') /\
    length ct = length t /\ length ct' = length t.
Proof.
  intros Hu Hca HK Hve Hm Hmin Hgrid Htr.
  destruct (conv_nonuniform_unfold t ca Ktrans ve vp Ta m dt tr
              Hu Hca HK Hve Hm Hmin Hgrid) as [-> ->].
  set (ca_r := map (interpolant spline scipy.quadratic t _) tr).
  set (imp_r := map (interpolant spline scipy.quadratic t _) tr).
  assert (Hca_r : length ca_r = length tr) by apply length_map.
  assert (Himp_r : length imp_r = length tr) by apply length_map.
  assert (Hconv : np.convolve ca_r imp_r = Ok (np.conv_full ca_r imp_r))
    by (apply convolve_ok; apply nonempty_of_length; lia).
  pose proof (window_length ca_r imp_r _ Hconv) as Hwin.
  rewrite Hca_r in Hwin.
  rewrite Hconv. cbn [bind]. rewrite (getitem_nth tr 1) by lia. cbn [bind].
  rewrite interp1d_ok by (try exact Htr; now rewrite scale_r_length).
  rewrite add_same_length by (now rewrite scale_r_length, scale_length, Hca_r).
  cbn [bind].
  rewrite interp1d_ok
    by (try exact Htr;
        rewrite zip_with_length, scale_r_length, scale_length, Hwin, Hca_r;
        apply Nat.min_id).
  cbn [bind]. do 2 eexists. repeat split; apply length_map.
Qed.

(** *** Three-point grids that break the resampling *)

Ltac solve_abs := unfold np.atol, np.rtol, Rabs; repeat destruct Rcase_abs; lra.

Lemma resample_grid_eq (t0 : R) (t : array) (dt : R) :
  dt <> 0 ->
  resample_grid (t0 :: t) dt
    = np.linspace t0 (last (t0 :: t) 0) (int ((last (t0 :: t) 0 - t0) / dt)).
Proof.
  intros Hdt. unfold resample_grid.
  cbn [getitem nth_error getitem_last bind].
  destruct (Req_dec_T dt 0); [contradiction | reflexivity].
Qed.

(** A grid [[a; a + d1; a + d1 + d2]] with [d1 < d2 < 2 * d1], seen by the
    code: not uniform, minimum spacing [d1], two resampled points. *)
Lemma grid_0_1_52 :
  let t := [0; 1; 5 / 2] in
  uniform_spacing t = Ok false /\
  np.min (np.diff t) = Ok 1 /\
  exists tr, resample_grid t 1 = Ok tr /\ length tr = 2%nat.
Proof.
  intros t. repeat split.
  - unfold uniform_spacing, t. cbn [np.diff getitem nth_error bind].
    unfold np.allclose. cbn [forallb].
    rewrite Rle_bool_true by solve_abs. rewrite Rle_bool_false by solve_abs.
    reflexivity.
  - unfold t. cbn [np.diff np.min fold_left]. f_equal.
    unfold Rmin. destruct (Rle_dec (1 - 0) (5 / 2 - 1)); lra.
  - unfold t. rewrite resample_grid_eq by lra. cbn [last].
    rewrite (int_floor ((5 / 2 - 0) / 1) 2) by lra.
    destruct (linspace_ok 0 (5 / 2) 2) as [g Hg]; [lia |].
    exists g. split; [exact Hg |]. now apply linspace_length in Hg.
Qed.

Lemma grid_0_2_5 :
  let t := [0; 2; 5] in
  uniform_spacing t = Ok false /\
  np.min (np.diff t) = Ok 2 /\
  exists tr, resample_grid t 2 = Ok tr /\ length tr = 2%nat.
Proof.
  intros t. repeat split.
  - unfold uniform_spacing, t. cbn [np.diff getitem nth_error bind].
    unfold np.allclose. cbn [forallb].
    rewrite Rle_bool_true by solve_abs. rewrite Rle_bool_false by solve_abs.
    reflexivity.
  - unfold t. cbn [np.diff np.min fold_left]. f_equal.
    unfold Rmin. destruct (Rle_dec (2 - 0) (5 - 2)); lra.
  - unfold t. rewrite resample_grid_eq by lra. cbn [last].
    rewrite (int_floor ((5 - 0) / 2) 2) by lra.
    destruct (linspace_ok 0 5 2) as [g Hg]; [lia |].
    exists g. split; [exact Hg |]. now apply linspace_length in Hg.
Qed.

(** C6 (a defect of the code).  The time series [t = [0; 1; 5/2]] is
    strictly increasing and [ca = [1; 1; 1]] has its length, yet with
    [Ktrans = 0.6], [ve = 0.2], [Ta = 0] and the method ["conv"] neither
    model returns a series at all, let alone one of length [len(t)]: the
    resampled grid has two points and the quadratic interpolant refuses
    them. *)
Theorem no_series_on_three_point_grid :
  let t := [0; 1; 5 / 2] in
  let ca := [1; 1; 1] in
  length ca = length t /\
  strictly_increasing t /\
  (forall ct, snd (tofts spline exp_conv t ca (3 / 5) (1 / 5) 0 "conv")
              <> Ok ct) /\
  (forall ct,
     snd (extended_tofts spline exp_conv t ca (3 / 5) (1 / 5) (3 / 10) 0
            "conv") <> Ok ct).
Proof.
  intros t ca.
  destruct grid_0_1_52 as (Hu & Hmin & tr & Hgrid & Htr).
  assert (HK : 0 < 3 / 5) by lra. assert (Hve : 0 < 1 / 5) by lra.
  assert (Hm : "conv"%string <> "exp"%string) by discriminate.
  destruct (conv_nonuniform_two_points t ca (3 / 5) (1 / 5) (3 / 10) 0 "conv"
              1 tr Hu eq_refl HK Hve Hm Hmin Hgrid Htr) as [Ht He].
  repeat split.
  - unfold strictly_increasing, t. cbn [np.diff].
    repeat constructor; lra.
  - intros ct. rewrite Ht. discriminate.
  - intros ct. rewrite He. discriminate.
Qed.

(** C9 (a defect of the code).  On the non-uniform grid [t = [0; 2; 5]],
    with [ca = [0; 1; 1/2]], [Ktrans = 0.6], [ve = 0.2], [vp = 0.3], the
    default delay [Ta = 30] and the method ["conv"], both models emit the
    warning and then raise [ValueError] in the resampling path instead of
    returning a result. *)
Theorem nonuniform_grid_raises :
  let t := [0; 2; 5] in
  let ca := [0; 1; 1 / 2] in
  uniform_spacing t = Ok false /\
  tofts spline exp_conv t ca (3 / 5) (1 / 5) 30 "conv"
    = ([nonuniform_warning], Raise ValueError) /\
  extended_tofts spline exp_conv t ca (3 / 5) (1 / 5) (3 / 10) 30 "conv"
    = ([nonuniform_warning], Raise ValueError).
Proof.
  intros t ca.
  destruct grid_0_2_5 as (Hu & Hmin & tr & Hgrid & Htr).
  assert (HK : 0 < 3 / 5) by lra. assert (Hve : 0 < 1 / 5) by lra.
  assert (Hm : "conv"%string <> "exp"%string) by discriminate.
  split; [exact Hu |].
  exact (conv_nonuniform_two_points t ca (3 / 5) (1 / 5) (3 / 10) 30 "conv"
           2 tr Hu eq_refl HK Hve Hm Hmin Hgrid Htr).
Qed.

(** Every three-point grid whose two spacings differ beyond the tolerance,
    the larger being less than twice the smaller, breaks both models in the
    same way.  The bounds are those of exact arithmetic; next to them the
    rounding of binary64 can move the point count by one. *)
Lemma three_point_grid_raises
    (a b c : R) (ca : array) (Ktrans ve vp Ta : R) (m : string) :
  a < b < c ->
  np.atol + np.rtol * Rabs (b - a) < Rabs (c - b - (b - a)) ->
  c - a < 3 * Rmin (b - a) (c - b) ->
  length ca = 3%nat ->
  0 < Ktrans -> 0 < ve ->
  m <> "exp"%string ->
  tofts spline exp_conv [a; b; c] ca Ktrans ve Ta m
    = ([nonuniform_warning], Raise ValueError) /\
  extended_tofts spline exp_conv [a; b; c] ca Ktrans ve vp Ta m
    = ([nonuniform_warning], Raise ValueError).
Proof.
  intros [Hab Hbc] Htol Hspan Hca HK Hve Hm.
  set (dmin := Rmin (b - a) (c - b)) in *.
  assert (Hdmin : 0 < dmin) by (apply Rmin_glb_lt; lra).
  pose proof (Rmin_l (b - a) (c - b)) as Hl.
  pose proof (Rmin_r (b - a) (c - b)) as Hr. fold dmin in Hl, Hr.
  assert (Hu : uniform_spacing [a; b; c] = Ok false).
  { unfold uniform_spacing. cbn [np.diff getitem nth_error bind].
    unfold np.allclose. cbn [forallb].
    rewrite Rle_bool_true.
    - now rewrite Rle_bool_false.
    - replace (b - a - (b - a)) with 0 by lra. rewrite Rabs_R0.
      pose proof (Rabs_pos (b - a)). unfold np.atol, np.rtol. nra. }
  assert (Hmin : np.min (np.diff [a; b; c]) = Ok dmin) by reflexivity.
  assert (Hint : int ((c - a) / dmin) = 2%Z).
  { set (x := (c - a) / dmin).
    assert (Hx : c - a = x * dmin) by (unfold x; field; lra).
    assert (2 <= x < 3) by (split; nra).
    apply int_floor; simpl; lra. }
  destruct (linspace_ok a c 2) as [tr Hlin]; [lia |].
  assert (Hgrid : resample_grid [a; b; c] dmin = Ok tr).
  { rewrite resample_grid_eq by lra. cbn [last]. now rewrite Hint. }
  apply linspace_length in Hlin.
  now apply (conv_nonuniform_two_points [a; b; c] ca Ktrans ve vp Ta m dmin tr).
Qed.

(** *** Where the length invariant does hold *)

Ltac bind_cases H :=
  repeat match type of H with
         | bind ?m _ = Ok _ =>
             let E := fresh "E" in
             destruct m eqn:E; cbn [bind] in H; [| discriminate H]
         end.

(** Whenever a model returns a series, the series is as long as [t]. *)
Lemma returned_series_length
    (t ca : array) (Ktrans ve vp Ta : R) (m : string) :
  (forall T t a, length a = length t -> length (exp_conv T t a) = length t) ->
  length ca = length t ->
  (forall ct, snd (tofts spline exp_conv t ca Ktrans ve Ta m) = Ok ct ->
              length ct = length t) /\
  (forall ct,
     snd (extended_tofts spline exp_conv t ca Ktrans ve vp Ta m) = Ok ct ->
     length ct = length t).
Proof.
  intros Hexp Hca. unfold tofts, extended_tofts.
  destruct (uniform_spacing t) as [u | e] eqn:Hu; cbn [snd];
    [| split; intros; discriminate].
  pose proof (uniform_spacing_inv t u Hu) as Hlen.
  destruct (Rle_bool Ktrans 0 || Rle_bool ve 0) eqn:Hg.
  { split; intros ct H; apply Ok_inj in H; subst ct;
      now rewrite scale_length. }
  destruct (guarded_divisions Ktrans ve Hg) as [HTc Hkep].
  rewrite HTc, Hkep, (shift_aif_ok t ca Ta Hca) by lia. cbn [bind].
  pose proof (arterial_input_length t ca Ta Hca) as Hca'.
  set (ca' := arterial_input spline t ca Ta) in *.
  assert (Hadd : forall a b ct, length a = length t -> length b = length t ->
                                add a b = Ok ct -> length ct = length t).
  { intros a b ct Ha Hb H. rewrite add_same_length in H by congruence.
    apply Ok_inj in H. subst ct. rewrite zip_with_length, Ha, Hb.
    apply Nat.min_id. }
  destruct (m =? "exp")%string.
  - split; intros ct H.
    + apply Ok_inj in H. subst ct. now rewrite scale_length, Hexp.
    + apply Hadd in H; [exact H | now rewrite scale_length |].
      now rewrite scale_length, Hexp.
  - destruct u.
    + split; intros ct H; bind_cases H.
      * apply Ok_inj in H. subst ct. rewrite scale_r_length.
        apply window_length in E. now rewrite Hca' in E.
      * apply Hadd in H; [exact H | | now rewrite scale_length].
        rewrite scale_r_length.
        apply window_length in E. now rewrite Hca' in E.
    + split; intros ct H; bind_cases H; apply Ok_inj in H; subst ct;
        apply length_map.
Qed.

Lemma fold_left_Rmin_le (a : array) (x : R) :
  fold_left Rmin a x <= x /\ Forall (fun d => fold_left Rmin a x <= d) a.
Proof.
  revert x. induction a as [| y a IH]; intros x; cbn [fold_left].
  - split; [lra | constructor].
  - destruct (IH (Rmin x y)) as [H1 H2].
    pose proof (Rmin_l x y). pose proof (Rmin_r x y).
    split; [lra |]. constructor; [lra | exact H2].
Qed.

Lemma fold_left_Rmin_in (a : array) (x : R) : In (fold_left Rmin a x) (x :: a).
Proof.
  revert x. induction a as [| y a IH]; intros x; cbn [fold_left].
  - now left.
  - specialize (IH (Rmin x y)).
    destruct (Rle_dec x y) as [L | L].
    + rewrite (Rmin_left x y L) in *. destruct IH as [H | H].
      * left. exact H.
      * right. right. exact H.
    + rewrite (Rmin_right x y) in * by lra. destruct IH as [H | H].
      * right. left. exact H.
      * right. right. exact H.
Qed.

Lemma min_spec (a : array) (m : R) :
  np.min a = Ok m -> In m a /\ Forall (fun d => m <= d) a.
Proof.
  destruct a as [| x a]; [discriminate |]. intros H.
  apply Ok_inj in H. subst m. split; [apply fold_left_Rmin_in |].
  destruct (fold_left_Rmin_le a x) as [H1 H2]. now constructor.
Qed.

(** The span of a grid is the sum of its spacings. *)
Lemma span_is_sum (x : R) (t : array) :
  last (x :: t) 0 - x = fold_right Rplus 0 (np.diff (x :: t)).
Proof.
  revert x. induction t as [| y t IH]; intros x.
  - simpl. lra.
  - change (last (x :: y :: t) 0) with (last (y :: t) 0).
    change (np.diff (x :: y :: t)) with ((y - x) :: np.diff (y :: t)).
    cbn [fold_right]. rewrite <- IH. lra.
Qed.

Lemma sum_lower_bound (a : array) (m : R) :
  Forall (fun d => m <= d) a -> INR (length a) * m <= fold_right Rplus 0 a.
Proof.
  induction 1 as [| d a Hd _ IH].
  - simpl. lra.
  - change (length (d :: a)) with (S (length a)).
    rewrite S_INR. cbn [fold_right]. lra.
Qed.

(** On a strictly increasing grid the minimum spacing is positive and fits
    at least [len(t) - 1] times into the span. *)
Lemma resample_count_bound (t0 : R) (t : array) (dt : R) :
  strictly_increasing (t0 :: t) ->
  (1 <= length t)%nat ->
  np.min (np.diff (t0 :: t)) = Ok dt ->
  0 < dt /\
  (Z.of_nat (length t) <= int ((last (t0 :: t) 0 - t0) / dt)%R)%Z.
Proof.
  intros Hinc Hlen Hmin. apply min_spec in Hmin as [Hin Hall].
  assert (Hdt : 0 < dt).
  { unfold strictly_increasing in Hinc. rewrite Forall_forall in Hinc.
    now apply Hinc. }
  split; [exact Hdt |].
  set (range := last (t0 :: t) 0 - t0).
  assert (Hrange : INR (length t) * dt <= range).
  { unfold range. rewrite span_is_sum.
    replace (length t) with (length (np.diff (t0 :: t)))
      by (rewrite diff_length; simpl; lia).
    now apply sum_lower_bound. }
  assert (Hx : IZR (Z.of_nat (length t)) <= range / dt).
  { rewrite <- INR_IZR_INZ. apply (Rmult_le_reg_r dt); [exact Hdt |].
    replace (range / dt * dt) with range by (field; lra). exact Hrange. }
  unfold int. pose proof (pos_INR (length t)) as Hpos.
  rewrite INR_IZR_INZ in Hpos.
  destruct (Rle_dec 0 (range / dt)); [| lra]. now apply Zfloor_lub.
Qed.

(** On a strictly increasing grid the resampled grid exists and has at
    least [len(t) - 1] points. *)
Lemma resample_count (t : array) (dt : R) :
  strictly_increasing t ->
  (2 <= length t)%nat ->
  np.min (np.diff t) = Ok dt ->
  0 < dt /\
  exists tr, resample_grid t dt = Ok tr /\ (length t - 1 <= length tr)%nat.
Proof.
  intros Hinc Hlen Hmin.
  destruct t as [| t0 t]; [simpl in Hlen; lia |].
  destruct (resample_count_bound t0 t dt Hinc) as [Hdt Hn];
    [simpl in Hlen; lia | exact Hmin |].
  split; [exact Hdt |].
  rewrite resample_grid_eq by lra.
  destruct (linspace_ok t0 (last (t0 :: t) 0)
              (int ((last (t0 :: t) 0 - t0) / dt))) as [g Hg]; [lia |].
  exists g. split; [exact Hg |].
  apply linspace_length in Hg. rewrite Hg. simpl length. lia.
Qed.

(** The part of the description of the resampled grid that the code meets:
    on a strictly increasing grid of three points or more it has
    [n = int((t[-1] - t[0]) / dt)] points, evenly spaced from [t[0]] to
    [t[-1]]; the spacing is [(t[-1] - t[0]) / (n - 1)]. *)
Lemma resample_grid_shape (t : array) (dt : R) :
  strictly_increasing t ->
  (3 <= length t)%nat ->
  np.min (np.diff t) = Ok dt ->
  let n := int ((last t 0 - hd 0 t) / dt) in
  exists tr,
    resample_grid t dt = Ok tr /\
    length tr = Z.to_nat n /\ (2 <= n)%Z /\
    nth 0 tr 0 = hd 0 t /\
    nth (length tr - 1) tr 0 = last t 0 /\
    forall i, (i < length tr)%nat ->
              nth i tr 0 = hd 0 t + INR i * ((last t 0 - hd 0 t) / IZR (n - 1)).
Proof.
  intros Hinc Hlen Hmin n.
  destruct t as [| t0 t]; [simpl in Hlen; lia |].
  destruct (resample_count_bound t0 t dt Hinc) as [Hdt Hn];
    [simpl in Hlen; lia | exact Hmin |].
  cbn [hd] in *. fold n in Hn.
  assert (Hn2 : (2 <= n)%Z) by (simpl in Hlen; lia).
  destruct (linspace_ok t0 (last (t0 :: t) 0) n) as [g Hg]; [lia |].
  pose proof (linspace_length _ _ _ _ Hg) as Hglen.
  assert (Hnth : forall i, (i < length g)%nat ->
            nth i g 0
            = t0 + INR i * ((last (t0 :: t) 0 - t0) / IZR (n - 1))).
  { intros i Hi. apply (linspace_nth _ _ _ _ _ Hg Hn2). lia. }
  exists g. repeat split; try assumption.
  - rewrite resample_grid_eq by lra. exact Hg.
  - rewrite Hnth by lia. simpl. lra.
  - rewrite Hnth by lia.
    assert (HZ : IZR (n - 1) = INR (length g - 1)).
    { rewrite INR_IZR_INZ. f_equal. lia. }
    rewrite HZ.
    assert (0 < INR (length g - 1)) by (apply lt_0_INR; lia).
    field. lra.
Qed.

(** On a strictly increasing grid of four points or more, uniform or not,
    the convolution method returns a series as long as [t] in both
    models.  This is a fact of exact arithmetic: it leaves out a point count
    too large for binary64 or for memory. *)
Lemma conv_returns_on_four_points
    (t ca : array) (Ktrans ve vp Ta : R) (m : string) :
  strictly_increasing t ->
  (4 <= length t)%nat ->
  length ca = length t ->
  0 < Ktrans -> 0 < ve ->
  m <> "exp"%string ->
  exists ct ct',
    snd (tofts spline exp_conv t ca Ktrans ve Ta m) = Ok ct /\
    snd (extended_tofts spline exp_conv t ca Ktrans ve vp Ta m) = Ok ct' /\
    length ct = length t /\ length ct' = length t.
Proof.
  intros Hinc Hlen Hca HK Hve Hm.
  destruct (uniform_spacing_ok t) as (d0 & _ & Hu); [lia |].
  destruct (np.allclose (np.diff t) d0).
  - destruct (conv_uniform_code t ca Ktrans ve vp Ta m Hu Hca HK Hve Hm)
      as [Ht He].
    pose proof (arterial_input_length t ca Ta Hca) as Hca'.
    assert (Hwin : length (scale_r
                     (firstn (length t)
                        (np.conv_full (arterial_input spline t ca Ta)
                           (impulse_response (Ktrans / 60) (Ktrans / 60 / ve) t)))
                     (nth 1 t 0)) = length t).
    { rewrite scale_r_length, length_firstn, conv_full_length.
      - rewrite Hca', impulse_response_length. lia.
      - apply nonempty_of_length. lia.
      - apply nonempty_of_length. rewrite impulse_response_length. lia. }
    rewrite add_same_length in He by (now rewrite Hwin, scale_length).
    rewrite Ht, He. cbn [snd]. do 2 eexists. repeat split.
    + exact Hwin.
    + rewrite zip_with_length, Hwin, scale_length, Hca'. apply Nat.min_id.
  - destruct (np.min (np.diff t)) as [dt | e] eqn:Hmin.
    2:{ destruct t as [| x [| y t]]; simpl in Hlen; try lia. discriminate. }
    destruct (resample_count t dt Hinc) as (Hdt & tr & Hgrid & Htr);
      [lia | exact Hmin |].
    destruct (conv_nonuniform_returns t ca Ktrans ve vp Ta m dt tr
                Hu Hca HK Hve Hm Hmin Hgrid) as (ct & ct' & Ht & He & H1 & H2);
      [lia |].
    rewrite Ht, He. cbn [snd]. now exists ct, ct'.
Qed.

End Properties.

(** ** The theorems at concrete inputs

    The collaborators are instantiated with [parabola] and
    [exp_conv_model]. *)

Lemma exp_conv_steps_cons (T f t0 t1 a0 a1 : R) (t a : array) :
  exp_conv_steps T f (t0 :: t1 :: t) (a0 :: a1 :: a)
  = let x := (t1 - t0) / T in
    let E := exp (- x) in
    let f' := E * f + a0 * (1 - E) + (a1 - a0) / x * (x - (1 - E)) in
    f' :: exp_conv_steps T f' (t1 :: t) (a1 :: a).
Proof. reflexivity. Qed.

Lemma exp_conv_steps_length (T f : R) (t a : array) :
  length a = length t ->
  length (exp_conv_steps T f t a) = (length t - 1)%nat.
Proof.
  revert f a. induction t as [| t0 t IH]; intros f a Hlen.
  - reflexivity.
  - destruct a as [| a0 a]; [discriminate |].
    destruct t as [| t1 t]; destruct a as [| a1 a]; try discriminate;
      [reflexivity |].
    rewrite exp_conv_steps_cons. cbv zeta.
    change (length (?x :: ?l)) with (S (length l)).
    rewrite IH by (simpl in *; lia). simpl. lia.
Qed.

Lemma exp_conv_model_length (T : R) (t a : array) :
  length a = length t -> length (exp_conv_model T t a) = length t.
Proof.
  intros Hlen. destruct t as [| t0 t]; [reflexivity |].
  unfold exp_conv_model. cbn [length].
  rewrite exp_conv_steps_length by exact Hlen. simpl. lia.
Qed.

Lemma degenerate_parameters_witness :
  (2 <= length [0; 1; 2])%nat /\
  (0 <= 0 \/ 1 / 5 <= 0) /\
  snd (tofts parabola exp_conv_model [0; 1; 2] [1; 2; 3] 0 (1 / 5) 30 "conv")
    = Ok (repeat 0 (length [1; 2; 3])) /\
  snd (extended_tofts parabola exp_conv_model [0; 1; 2] [1; 2; 3] 0 (1 / 5)
         (3 / 10) 30 "conv")
    = Ok (map (fun c => 3 / 10 * c) [1; 2; 3]).
Proof.
  split; [simpl; lia |]. split; [left; lra |].
  apply (degenerate_parameters parabola exp_conv_model
           [0; 1; 2] [1; 2; 3] 0 (1 / 5) (3 / 10) 30 "conv").
  - simpl. lia.
  - left. lra.
Defined.

Lemma unknown_method_is_conv_witness :
  "exponential"%string <> "exp"%string /\
  tofts parabola exp_conv_model [0; 1; 2] [1; 2; 3] (3 / 5) (1 / 5) 30
    "exponential"
    = tofts parabola exp_conv_model [0; 1; 2] [1; 2; 3] (3 / 5) (1 / 5) 30
        "conv" /\
  extended_tofts parabola exp_conv_model [0; 1; 2] [1; 2; 3] (3 / 5) (1 / 5)
    (3 / 10) 30 "exponential"
    = extended_tofts parabola exp_conv_model [0; 1; 2] [1; 2; 3] (3 / 5)
        (1 / 5) (3 / 10) 30 "conv".
Proof.
  split; [discriminate |].
  apply (unknown_method_is_conv parabola exp_conv_model
           [0; 1; 2] [1; 2; 3] (3 / 5) (1 / 5) (3 / 10) 30 "exponential").
  discriminate.
Defined.



Lemma extended_without_plasma_witness :
  (forall T t a, length a = length t ->
                 length (exp_conv_model T t a) = length t) /\
  length [1; 2; 3] = length [0; 1; 2] /\
  0 < 3 / 5 /\ 0 < 1 / 5 /\
  extended_tofts parabola exp_conv_model [0; 1; 2] [1; 2; 3] (3 / 5) (1 / 5)
    0 30 "exp"
    = tofts parabola exp_conv_model [0; 1; 2] [1; 2; 3] (3 / 5) (1 / 5) 30
        "exp".
Proof.
  split; [exact exp_conv_model_length |]. split; [reflexivity |].
  split; [lra |]. split; [lra |].
  apply (extended_without_plasma parabola exp_conv_model
           [0; 1; 2] [1; 2; 3] (3 / 5) (1 / 5) 30 "exp").
  - exact exp_conv_model_length.
  - reflexivity.
  - lra.
  - lra.
Defined.

(** ** Further properties of the two models *)

Section Coverage.

Variable spline : array -> array -> R -> R.
Variable exp_conv : R -> array -> array -> array.

(** *** Grids and warnings *)

Lemma first_spacing (t : array) (d0 : R) :
  getitem (np.diff t) 0 = Ok d0 -> d0 = nth 1 t 0 - nth 0 t 0.
Proof.
  destruct t as [| x [| y t]]; try discriminate.
  cbn [np.diff getitem nth_error nth]. intros H. now apply Ok_inj in H.
Qed.

(** X1.  On a time series of fewer than two points both models raise
    [IndexError] at the grid test, before the parameters are looked at: the
    degenerate branch is not reached either. *)
Theorem short_grid_raises
    (t ca : array) (Ktrans ve vp Ta : R) (m : string) :
  (length t < 2)%nat ->
  tofts spline exp_conv t ca Ktrans ve Ta m = ([], Raise IndexError) /\
  extended_tofts spline exp_conv t ca Ktrans ve vp Ta m
    = ([], Raise IndexError).
Proof.
  intros H. unfold tofts, extended_tofts.
  rewrite (uniform_spacing_short t H). split; reflexivity.
Qed.

(** X2.  A grid whose consecutive spacings are all equal to the first one
    (every two-point grid is such a grid) draws no warning from either
    model, whatever the other arguments. *)
Theorem evenly_spaced_grid_is_silent
    (t ca : array) (Ktrans ve vp Ta : R) (m : string) :
  (2 <= length t)%nat ->
  (forall d, In d (np.diff t) -> d = nth 1 t 0 - nth 0 t 0) ->
  fst (tofts spline exp_conv t ca Ktrans ve Ta m) = [] /\
  fst (extended_tofts spline exp_conv t ca Ktrans ve vp Ta m) = [].
Proof.
  intros Hlen Heven.
  destruct (uniform_spacing_ok t Hlen) as (d0 & Hd0 & Hu).
  apply first_spacing in Hd0. subst d0.
  rewrite (allclose_exact _ _ Heven) in Hu.
  exact (warning_iff_nonuniform spline exp_conv t ca Ktrans ve vp Ta m true Hu).
Qed.

(** X3.  As soon as one spacing differs from the first one by more than
    [atol + rtol * |first|], both models emit exactly one warning, also
    with degenerate parameters and with the method ["exp"], the two cases in
    which nothing is resampled. *)
Theorem deviating_grid_warns_once
    (t ca : array) (Ktrans ve vp Ta : R) (m : string) (d : R) :
  (2 <= length t)%nat ->
  In d (np.diff t) ->
  np.atol + np.rtol * Rabs (nth 1 t 0 - nth 0 t 0)
    < Rabs (d - (nth 1 t 0 - nth 0 t 0)) ->
  fst (tofts spline exp_conv t ca Ktrans ve Ta m) = [nonuniform_warning] /\
  fst (extended_tofts spline exp_conv t ca Ktrans ve vp Ta m)
    = [nonuniform_warning].
Proof.
  intros Hlen Hin Hdev.
  destruct (uniform_spacing_ok t Hlen) as (d0 & Hd0 & Hu).
  apply first_spacing in Hd0. subst d0.
  assert (Hfalse : np.allclose (np.diff t) (nth 1 t 0 - nth 0 t 0) = false).
  { destruct (np.allclose _ _) eqn:E; [| reflexivity].
    unfold np.allclose in E. rewrite forallb_forall in E.
    specialize (E d Hin). rewrite Rle_bool_false in E by exact Hdev.
    discriminate. }
  rewrite Hfalse in Hu.
  exact (warning_iff_nonuniform spline exp_conv t ca Ktrans ve vp Ta m false Hu).
Qed.

(** *** Series of unequal length *)

Lemma interp1d_mismatch (x y : array) (k : scipy.kind) :
  length y <> length x -> interp1d spline x y k = Raise ValueError.
Proof.
  intros H. unfold interp1d.
  destruct (Nat.eqb_spec (length x) (length y)); [congruence | reflexivity].
Qed.

(** X4.  With a non-zero delay and non-degenerate parameters, an arterial
    series whose length differs from that of the time series makes both
    models raise [ValueError], under either method: the interpolant of the
    delay shift refuses the samples. *)
Theorem length_mismatch_with_delay_raises
    (t ca : array) (Ktrans ve vp Ta : R) (m : string) :
  (2 <= length t)%nat ->
  length ca <> length t ->
  Ta <> 0 ->
  0 < Ktrans -> 0 < ve ->
  snd (tofts spline exp_conv t ca Ktrans ve Ta m) = Raise ValueError /\
  snd (extended_tofts spline exp_conv t ca Ktrans ve vp Ta m)
    = Raise ValueError.
Proof.
  intros Hlen Hca HTa HK Hve.
  destruct (uniform_spacing_ok t Hlen) as (d0 & _ & Hu).
  destruct (guarded_divisions Ktrans ve (guard_regular _ _ HK Hve)) as [HTc Hkep].
  assert (Hshift : shift_aif spline t ca Ta = Raise ValueError).
  { unfold shift_aif. destruct (Req_dec_T Ta 0); [contradiction |].
    now rewrite interp1d_mismatch. }
  unfold tofts, extended_tofts.
  rewrite Hu, (guard_regular _ _ HK Hve), Hkep, Hshift. cbn [snd bind].
  destruct (m =? "exp")%string; split; reflexivity.
Qed.

(** X5.  Without delay, on a uniform grid and with the convolution method,
    the two models part ways on an arterial series of another length (not
    empty, not a single sample): [tofts] does not notice and returns
    [len(t)] samples, [extended_tofts] raises [ValueError] when it adds
    [vp * ca]. *)
Theorem length_mismatch_without_delay
    (t ca : array) (Ktrans ve vp : R) (m : string) :
  uniform_spacing t = Ok true ->
  (2 <= length ca)%nat ->
  length ca <> length t ->
  0 < Ktrans -> 0 < ve ->
  m <> "exp"%string ->
  (exists ct, snd (tofts spline exp_conv t ca Ktrans ve 0 m) = Ok ct /\
              length ct = length t) /\
  snd (extended_tofts spline exp_conv t ca Ktrans ve vp 0 m)
    = Raise ValueError.
Proof.
  intros Hu Hca2 Hca HK Hve Hm.
  pose proof (uniform_spacing_inv t true Hu) as Hlen.
  apply String.eqb_neq in Hm.
  destruct (guarded_divisions Ktrans ve (guard_regular _ _ HK Hve)) as [_ Hkep].
  set (imp := impulse_response (Ktrans / 60) (Ktrans / 60 / ve) t).
  assert (Himp : imp <> [])
    by (apply nonempty_of_length; unfold imp;
        rewrite impulse_response_length; lia).
  assert (Hcane : ca <> []) by (apply nonempty_of_length; lia).
  assert (Hwin : length (scale_r (firstn (length t) (np.conv_full ca imp))
                           (nth 1 t 0)) = length t).
  { rewrite scale_r_length, length_firstn, conv_full_length by assumption.
    unfold imp. rewrite impulse_response_length. lia. }
  unfold tofts, extended_tofts.
  rewrite Hu, (guard_regular _ _ HK Hve), Hm, Hkep, shift_aif_zero.
  cbn [snd bind]. fold imp.
  rewrite (convolve_ok ca imp Hcane Himp). cbn [bind].
  rewrite (getitem_nth t 1) by lia. cbn [bind]. split.
  - eexists. split; [reflexivity | exact Hwin].
  - unfold add. rewrite Hwin, scale_length.
    destruct (Nat.eqb_spec (length t) (length ca)); [congruence |].
    destruct (Nat.eqb_spec (length t) 1); [lia |].
    destruct (Nat.eqb_spec (length ca) 1); [lia | reflexivity].
Qed.

(** *** When the models return *)


Lemma uniform_window_length (t ca' : array) (K kep t1 : R) :
  (1 <= length t)%nat -> length ca' = length t ->
  length (scale_r (firstn (length t)
                     (np.conv_full ca' (impulse_response K kep t))) t1)
  = length t.
Proof.
  intros Hlen Hca'.
  rewrite scale_r_length, length_firstn, conv_full_length.
  - rewrite Hca', impulse_response_length. lia.
  - apply nonempty_of_length. lia.
  - apply nonempty_of_length. rewrite impulse_response_length. lia.
Qed.

(** X6.  On a grid that passes the uniformity test, with an arterial series
    as long as the time series, both models return without warning a series
    of [len(t)] samples under the convolution method, for all values of
    [Ktrans], [ve], [vp] and [Ta], and under any method when the parameters
    are degenerate. *)
Theorem uniform_grid_convolution_returns
    (t ca : array) (Ktrans ve vp Ta : R) (m : string) :
  uniform_spacing t = Ok true ->
  length ca = length t ->
  m <> "exp"%string \/ Ktrans <= 0 \/ ve <= 0 ->
  exists ct ct',
    tofts spline exp_conv t ca Ktrans ve Ta m = ([], Ok ct) /\
    extended_tofts spline exp_conv t ca Ktrans ve vp Ta m = ([], Ok ct') /\
    length ct = length t /\ length ct' = length t.
Proof.
  intros Hu Hca Hpath.
  pose proof (uniform_spacing_inv t true Hu) as Hlen.
  pose proof (arterial_input_length spline t ca Ta Hca) as Hca'.
  destruct (Rle_bool Ktrans 0 || Rle_bool ve 0) eqn:Hg.
  - exists (scale 0 ca), (scale vp ca).
    unfold tofts, extended_tofts. rewrite Hu, Hg.
    repeat split; now rewrite scale_length.
  - apply guard_false_inv in Hg as [HK Hve].
    destruct Hpath as [Hm | [Hdeg | Hdeg]]; [| lra | lra].
    destruct (conv_uniform_code spline exp_conv t ca Ktrans ve vp Ta m
                Hu Hca HK Hve Hm) as [Ht He].
    pose proof (uniform_window_length t (arterial_input spline t ca Ta)
                  (Ktrans / 60) (Ktrans / 60 / ve) (nth 1 t 0)) as Hwin.
    rewrite add_same_length in He
      by (rewrite Hwin, scale_length; [now rewrite Hca' | lia | exact Hca']).
    rewrite Ht, He. do 2 eexists. repeat split.
    + apply Hwin; [lia | exact Hca'].
    + rewrite zip_with_length, Hwin, scale_length, Hca' by (lia || exact Hca').
      apply Nat.min_id.
Qed.

Ltac both_raise := right; eexists; split; reflexivity.

(** X7.  On every grid, with an arterial series as long as the time series
    and an [exp_conv] that answers on the time grid, the two models stand
    and fall together: they emit the same warnings, and either both return
    a series of [len(t)] samples or both raise the same exception, for all
    parameter values, every delay and every method. *)
Theorem models_return_or_raise_together
    (t ca : array) (Ktrans ve vp Ta : R) (m : string) :
  (forall T t a, length a = length t -> length (exp_conv T t a) = length t) ->
  length ca = length t ->
  fst (tofts spline exp_conv t ca Ktrans ve Ta m)
    = fst (extended_tofts spline exp_conv t ca Ktrans ve vp Ta m) /\
  ((exists ct ct',
      snd (tofts spline exp_conv t ca Ktrans ve Ta m) = Ok ct /\
      snd (extended_tofts spline exp_conv t ca Ktrans ve vp Ta m) = Ok ct' /\
      length ct = length t /\ length ct' = length t) \/
   (exists e,
      snd (tofts spline exp_conv t ca Ktrans ve Ta m) = Raise e /\
      snd (extended_tofts spline exp_conv t ca Ktrans ve vp Ta m) = Raise e)).
Proof.
  intros Hexp Hca. unfold tofts, extended_tofts.
  destruct (uniform_spacing t) as [u | e] eqn:Hu; cbn [fst snd];
    [| split; [reflexivity | both_raise]].
  split; [reflexivity |].
  pose proof (uniform_spacing_inv t u Hu) as Hlen.
  destruct (Rle_bool Ktrans 0 || Rle_bool ve 0) eqn:Hg.
  { left. do 2 eexists. repeat split; now rewrite scale_length. }
  destruct (guarded_divisions Ktrans ve Hg) as [HTc Hkep].
  rewrite HTc, Hkep, (shift_aif_ok spline t ca Ta Hca) by lia. cbn [bind].
  pose proof (arterial_input_length spline t ca Ta Hca) as Hca'.
  set (ca' := arterial_input spline t ca Ta) in *.
  destruct (m =? "exp")%string.
  - left. rewrite add_same_length by (now rewrite !scale_length, Hexp, Hca').
    do 2 eexists. repeat split.
    + now rewrite scale_length, Hexp.
    + rewrite zip_with_length, !scale_length, Hexp, Hca' by exact Hca'.
      apply Nat.min_id.
  - destruct u.
    + destruct (np.convolve ca' _) as [c | e] eqn:Hc; cbn [bind];
        [| both_raise].
      destruct (getitem t 1) as [t1 | e]; cbn [bind]; [| both_raise].
      assert (Hwin : length (scale_r (firstn (length t) c) t1) = length t).
      { rewrite scale_r_length. apply window_length in Hc.
        now rewrite Hca' in Hc. }
      left. rewrite add_same_length by (now rewrite Hwin, scale_length).
      do 2 eexists. repeat split; [exact Hwin |].
      rewrite zip_with_length, Hwin, scale_length, Hca'. apply Nat.min_id.
    + destruct (np.min (np.diff t)) as [dt | e]; cbn [bind]; [| both_raise].
      destruct (resample_grid t dt) as [tr | e]; cbn [bind]; [| both_raise].
      destruct (interp1d spline t ca' scipy.quadratic) as [ca_func | e];
        cbn [bind]; [| both_raise].
      destruct (interp1d spline t _ scipy.quadratic) as [imp_func | e];
        cbn [bind]; [| both_raise].
      destruct (np.convolve _ _) as [c | e] eqn:Hc; cbn [bind];
        [| both_raise].
      destruct (getitem tr 1) as [tr1 | e]; cbn [bind]; [| both_raise].
      apply window_length in Hc. rewrite length_map in Hc.
      rewrite add_same_length
        by (now rewrite scale_r_length, scale_length, length_map).
      cbn [bind].
      assert (Hlen_r : length (zip_with Rplus
                                 (scale_r (firstn (length tr) c) tr1)
                                 (scale vp (map ca_func tr)))
                       = length (scale_r (firstn (length tr) c) tr1)).
      { rewrite zip_with_length, scale_r_length, scale_length, length_map, Hc.
        apply Nat.min_id. }
      unfold interp1d. rewrite Hlen_r.
      destruct (negb _); [both_raise |].
      destruct (_ <? _)%nat; [both_raise |].
      left. do 2 eexists. repeat split; apply length_map.
Qed.

(** *** The convolution on a grid that starts at zero *)

(** X9.  On a uniform grid with [t[0] = 0], with non-degenerate parameters
    and the convolution method, [t[1]] is the step: [tofts] returns the
    convolution of the shifted series with the impulse response, truncated
    to [len(t)] samples and scaled by the step, and [extended_tofts] returns
    that series plus [vp] times the shifted series. *)
Theorem convolution_from_origin
    (t ca : array) (Ktrans ve vp Ta : R) (m : string) :
  uniform_spacing t = Ok true ->
  length ca = length t ->
  0 < Ktrans -> 0 < ve ->
  m <> "exp"%string ->
  nth 0 t 0 = 0 ->
  let ca' := arterial_input spline t ca Ta in
  snd (tofts spline exp_conv t ca Ktrans ve Ta m)
    = Ok (riemann_convolution t ca' Ktrans ve) /\
  snd (extended_tofts spline exp_conv t ca Ktrans ve vp Ta m)
    = Ok (zip_with Rplus (riemann_convolution t ca' Ktrans ve) (scale vp ca')).
Proof.
  intros Hu Hca HK Hve Hm H0 ca'.
  pose proof (uniform_spacing_inv t true Hu) as Hlen.
  pose proof (arterial_input_length spline t ca Ta Hca) as Hca'.
  destruct (conv_uniform_code spline exp_conv t ca Ktrans ve vp Ta m
              Hu Hca HK Hve Hm) as [Ht He].
  fold ca' in Hca', Ht, He.
  assert (Hr : riemann_convolution t ca' Ktrans ve
               = scale_r (firstn (length t)
                            (np.conv_full ca'
                               (impulse_response (Ktrans / 60)
                                  (Ktrans / 60 / ve) t))) (nth 1 t 0)).
  { unfold riemann_convolution. rewrite H0. do 2 f_equal. lra. }
  rewrite Ht, He, Hr. cbn [snd]. split; [reflexivity |].
  apply add_same_length.
  rewrite uniform_window_length, scale_length by (lia || exact Hca').
  now rewrite Hca'.
Qed.

(** *** The resampled grid on increasing time series *)

Lemma int_at_least_two (x : R) : (2 <= int x)%Z -> 2 <= x.
Proof.
  unfold int. destruct (Rle_dec 0 x) as [Hpos | Hneg]; intros H.
  - pose proof (Zfloor_bound x) as [Hlo _]. apply IZR_le in H. lra.
  - apply Rnot_le_lt in Hneg. exfalso.
    assert (Hopp : 0 <= - x) by lra.
    pose proof (Zfloor_lub 0 (- x) Hopp) as Hf.
    unfold Zceil in H. lia.
Qed.

(** X10.  On a strictly increasing grid of three points or more, resampled
    at its minimum spacing [dt]: the resampled grid has at least two points,
    starts at [t[0]], ends at [t[-1]], and every one of its steps is
    strictly larger than [dt]. *)
Theorem resampled_spacing_exceeds_dt_min (t : array) (dt : R) :
  strictly_increasing t ->
  (3 <= length t)%nat ->
  np.min (np.diff t) = Ok dt ->
  exists tr,
    resample_grid t dt = Ok tr /\
    (2 <= length tr)%nat /\
    nth 0 tr 0 = hd 0 t /\
    nth (length tr - 1) tr 0 = last t 0 /\
    forall i, (S i < length tr)%nat -> dt < nth (S i) tr 0 - nth i tr 0.
Proof.
  intros Hinc Hlen Hmin.
  destruct (resample_grid_shape t dt Hinc Hlen Hmin)
    as (tr & Hgrid & Hcount & Hn2 & Hfirst & Hlast & Hnth).
  destruct (resample_count t dt Hinc) as [Hdt _]; [lia | exact Hmin |].
  set (range := last t 0 - hd 0 t) in *.
  set (n := int (range / dt)) in *.
  assert (Hrange : 2 * dt <= range).
  { assert (Hx : 2 <= range / dt) by (apply int_at_least_two; exact Hn2).
    replace range with (range / dt * dt) by (field; lra). nra. }
  destruct (resample_step_exceeds_dt range dt Hdt Hrange) as [_ Hstep].
  fold n in Hstep.
  exists tr. repeat split; try assumption; [lia |].
  intros i Hi. rewrite !Hnth by lia. rewrite S_INR. lra.
Qed.

(** *** A repeated time point *)

(** X11.  When the grid fails the uniformity test, is nowhere decreasing and
    holds one time point twice, so that its minimum spacing is zero, the
    convolution method with non-degenerate parameters ends in
    [OverflowError] in both models: the point count of the resampled grid
    is the integer part of an infinite quotient. *)
Theorem repeated_time_point_raises
    (t ca : array) (Ktrans ve vp Ta : R) (m : string) :
  uniform_spacing t = Ok false ->
  Forall (fun d => 0 <= d) (np.diff t) ->
  In 0 (np.diff t) ->
  last t 0 <> hd 0 t ->
  length ca = length t ->
  0 < Ktrans -> 0 < ve ->
  m <> "exp"%string ->
  snd (tofts spline exp_conv t ca Ktrans ve Ta m) = Raise OverflowError /\
  snd (extended_tofts spline exp_conv t ca Ktrans ve vp Ta m)
    = Raise OverflowError.
Proof.
  intros Hu Hnonneg Hzero Hspan Hca HK Hve Hm.
  pose proof (uniform_spacing_inv t false Hu) as Hlen.
  apply String.eqb_neq in Hm.
  destruct (guarded_divisions Ktrans ve (guard_regular _ _ HK Hve)) as [_ Hkep].
  assert (Hmin : np.min (np.diff t) = Ok 0).
  { destruct (np.min (np.diff t)) as [dmin | e] eqn:E.
    - apply min_spec in E as [Hin Hall]. f_equal.
      rewrite Forall_forall in Hnonneg, Hall.
      specialize (Hnonneg dmin Hin). specialize (Hall 0 Hzero). lra.
    - destruct (np.diff t); [contradiction | discriminate]. }
  assert (Hgrid : resample_grid t 0 = Raise OverflowError).
  { destruct t as [| t0 t]; [simpl in Hlen; lia |].
    unfold resample_grid. cbn [getitem nth_error getitem_last bind].
    destruct (Req_dec_T 0 0) as [_ | Hne]; [| contradiction].
    cbn [hd] in Hspan.
    destruct (Req_dec_T (last (t0 :: t) 0 - t0) 0); [lra | reflexivity]. }
  unfold tofts, extended_tofts.
  rewrite Hu, (guard_regular _ _ HK Hve), Hm, Hkep. cbn [snd bind].
  rewrite (shift_aif_ok spline t ca Ta Hca) by lia. cbn [bind].
  rewrite Hmin. cbn [bind]. rewrite Hgrid. split; reflexivity.
Qed.

(** *** Linearity in the arterial series *)

Lemma scale_scale (c x : R) (v : array) :
  scale (c * x) v = scale c (scale x v).
Proof.
  unfold scale. rewrite map_map. apply map_ext. intros; ring.
Qed.

Lemma scale_padd (c : R) (a b : array) :
  scale c (np.padd a b) = np.padd (scale c a) (scale c b).
Proof.
  revert b. induction a as [| x a IH]; intros [| y b]; try reflexivity.
  cbn [np.padd scale map]. f_equal; [ring | apply IH].
Qed.

Lemma conv_full_scale (c : R) (a v : array) :
  np.conv_full (scale c a) v = scale c (np.conv_full a v).
Proof.
  induction a as [| x a IH]; [reflexivity |].
  destruct a as [| y a].
  - apply scale_scale.
  - change (np.conv_full (scale c (x :: y :: a)) v)
      with (np.padd (scale (c * x) v)
              (0 :: np.conv_full (scale c (y :: a)) v)).
    change (np.conv_full (x :: y :: a) v)
      with (np.padd (scale x v) (0 :: np.conv_full (y :: a) v)).
    rewrite IH, scale_padd, scale_scale.
    cbn [scale map]. replace (c * 0) with 0 by ring. reflexivity.
Qed.

Lemma firstn_scale (n : nat) (c : R) (a : array) :
  firstn n (scale c a) = scale c (firstn n a).
Proof. unfold scale. apply firstn_map. Qed.

Lemma scale_r_scale (c t1 : R) (a : array) :
  scale_r (scale c a) t1 = scale c (scale_r a t1).
Proof.
  unfold scale, scale_r. rewrite !map_map. apply map_ext. intros; ring.
Qed.

Lemma zip_with_plus_scale (c : R) (a b : array) :
  zip_with Rplus (scale c a) (scale c b) = scale c (zip_with Rplus a b).
Proof.
  revert b. induction a as [| x a IH]; intros [| y b]; try reflexivity.
  cbn [zip_with scale map]. f_equal; [ring | apply IH].
Qed.

Lemma scale_comm (c d : R) (a : array) :
  scale c (scale d a) = scale d (scale c a).
Proof.
  unfold scale. rewrite !map_map. apply map_ext. intros; ring.
Qed.

Lemma nth_scale (c : R) (a : array) (i : nat) :
  nth i (scale c a) 0 = c * nth i a 0.
Proof.
  revert i. induction a as [| x a IH]; intros [| i]; cbn [scale map nth];
    try ring; try reflexivity.
  apply IH.
Qed.

(** Sorting the samples by abscissa does not look at the ordinates. *)
Lemma insert_map_snd (g : R -> R) (p : R * R) (l : list (R * R)) :
  scipy.insert (fst p, g (snd p)) (map (fun q => (fst q, g (snd q))) l)
  = map (fun q => (fst q, g (snd q))) (scipy.insert p l).
Proof.
  induction l as [| q l IH]; [reflexivity |].
  cbn [map scipy.insert fst].
  destruct (Rle_dec (fst p) (fst q)); [reflexivity |].
  cbn [map]. now rewrite IH.
Qed.

Lemma sort_samples_map (g : R -> R) (x y : array) :
  scipy.sort_samples x (map g y)
  = map (fun q => (fst q, g (snd q))) (scipy.sort_samples x y).
Proof.
  unfold scipy.sort_samples. revert y.
  induction x as [| x0 x IH]; intros [| y0 y]; try reflexivity.
  cbn [map combine fold_right]. rewrite IH.
  apply (insert_map_snd g (x0, y0)).
Qed.

Lemma map_fst_relabel (g : R -> R) (l : list (R * R)) :
  map fst (map (fun q => (fst q, g (snd q))) l) = map fst l.
Proof. rewrite map_map. apply map_ext. reflexivity. Qed.

Lemma map_snd_relabel (g : R -> R) (l : list (R * R)) :
  map snd (map (fun q => (fst q, g (snd q))) l) = map g (map snd l).
Proof. rewrite !map_map. apply map_ext. reflexivity. Qed.

Lemma call_linear_scale (c : R) (xs ys : array) (q : R) :
  scipy.call_linear xs (scale c ys) q = c * scipy.call_linear xs ys q.
Proof.
  unfold scipy.call_linear. rewrite !nth_scale. unfold Rdiv. ring.
Qed.

Lemma interpolant_linear_scale (c : R) (x y : array) (q : R) :
  interpolant spline scipy.linear x (scale c y) q
  = c * interpolant spline scipy.linear x y q.
Proof.
  unfold interpolant. cbv zeta. unfold scale.
  rewrite sort_samples_map, map_fst_relabel, map_snd_relabel.
  fold (scale c (map snd (scipy.sort_samples x y))).
  destruct (scipy.out_of_bounds _ q); [ring |].
  apply call_linear_scale.
Qed.

Lemma zip_with_maps (f g : R -> R) (t : array) :
  zip_with Rmult (map f t) (map g t) = map (fun x => f x * g x) t.
Proof. induction t as [| x t IH]; [reflexivity |]. cbn. now rewrite IH. Qed.

Lemma delayed_aif_scale (c : R) (t ca : array) (Ta : R) :
  delayed_aif spline t (scale c ca) Ta = scale c (delayed_aif spline t ca Ta).
Proof.
  unfold delayed_aif. rewrite !zip_with_maps. unfold scale at 2.
  rewrite map_map. apply map_ext. intros ti.
  rewrite interpolant_linear_scale. ring.
Qed.

Lemma arterial_input_scale (c : R) (t ca : array) (Ta : R) :
  arterial_input spline t (scale c ca) Ta
  = scale c (arterial_input spline t ca Ta).
Proof.
  unfold arterial_input. destruct (Req_dec_T Ta 0); [reflexivity |].
  apply delayed_aif_scale.
Qed.

(** X12.  On a uniform grid, with non-degenerate parameters and the
    convolution method, both models are homogeneous in the arterial series:
    multiplying [ca] by a constant multiplies the returned series by that
    constant, for every delay. *)
Theorem scaling_the_arterial_series
    (t ca : array) (Ktrans ve vp Ta c : R) (m : string) :
  uniform_spacing t = Ok true ->
  length ca = length t ->
  0 < Ktrans -> 0 < ve ->
  m <> "exp"%string ->
  exists ct ct',
    snd (tofts spline exp_conv t ca Ktrans ve Ta m) = Ok ct /\
    snd (tofts spline exp_conv t (scale c ca) Ktrans ve Ta m)
      = Ok (scale c ct) /\
    snd (extended_tofts spline exp_conv t ca Ktrans ve vp Ta m) = Ok ct' /\
    snd (extended_tofts spline exp_conv t (scale c ca) Ktrans ve vp Ta m)
      = Ok (scale c ct').
Proof.
  intros Hu Hca HK Hve Hm.
  pose proof (uniform_spacing_inv t true Hu) as Hlen.
  pose proof (arterial_input_length spline t ca Ta Hca) as Hca'.
  assert (Hsca : length (scale c ca) = length t)
    by (now rewrite scale_length).
  destruct (conv_uniform_code spline exp_conv t ca Ktrans ve vp Ta m
              Hu Hca HK Hve Hm) as [Ht He].
  destruct (conv_uniform_code spline exp_conv t (scale c ca) Ktrans ve vp Ta m
              Hu Hsca HK Hve Hm) as [Hts Hes].
  rewrite arterial_input_scale, conv_full_scale, firstn_scale, scale_r_scale
    in Hts, Hes.
  set (ca' := arterial_input spline t ca Ta) in *.
  set (ct := scale_r (firstn (length t) (np.conv_full ca' _)) (nth 1 t 0)) in *.
  assert (Hct : length ct = length t)
    by (apply uniform_window_length; [lia | exact Hca']).
  rewrite add_same_length in He by (now rewrite Hct, scale_length, Hca').
  rewrite (scale_comm vp c), add_same_length, zip_with_plus_scale in Hes
    by (now rewrite !scale_length, Hct, Hca').
  rewrite Ht, Hts, He, Hes. cbn [snd].
  do 2 eexists. repeat split; reflexivity.
Qed.

Lemma scale_plus (x y : R) (v : array) :
  scale (x + y) v = zip_with Rplus (scale x v) (scale y v).
Proof.
  induction v as [| z v IH]; [reflexivity |].
  cbn [scale map zip_with]. f_equal; [ring | exact IH].
Qed.

Lemma padd_zip (a b c d : array) :
  length a = length b -> length c = length d ->
  np.padd (zip_with Rplus a b) (zip_with Rplus c d)
  = zip_with Rplus (np.padd a c) (np.padd b d).
Proof.
  revert b c d. induction a as [| x a IH]; intros [| y b] c d Hab Hcd;
    try discriminate.
  - reflexivity.
  - destruct c as [| z c], d as [| w d]; try discriminate; [reflexivity |].
    cbn [zip_with np.padd]. f_equal; [ring |].
    apply IH; simpl in *; lia.
Qed.

Lemma conv_full_same_length (a b v : array) :
  length a = length b ->
  length (np.conv_full a v) = length (np.conv_full b v).
Proof.
  revert b. induction a as [| x a IH]; intros [| y b] H; try discriminate;
    [reflexivity |].
  destruct a as [| x' a], b as [| y' b]; try discriminate.
  - change (np.conv_full [x] v) with (scale x v).
    change (np.conv_full [y] v) with (scale y v).
    now rewrite !scale_length.
  - change (np.conv_full (x :: x' :: a) v)
      with (np.padd (scale x v) (0 :: np.conv_full (x' :: a) v)).
    change (np.conv_full (y :: y' :: b) v)
      with (np.padd (scale y v) (0 :: np.conv_full (y' :: b) v)).
    rewrite !padd_length, !scale_length. cbn [length].
    rewrite (IH (y' :: b)) by (simpl in *; lia). reflexivity.
Qed.

Lemma conv_full_plus (a b v : array) :
  length a = length b ->
  np.conv_full (zip_with Rplus a b) v
  = zip_with Rplus (np.conv_full a v) (np.conv_full b v).
Proof.
  revert b. induction a as [| x a IH]; intros [| y b] H; try discriminate;
    [reflexivity |].
  destruct a as [| x' a], b as [| y' b]; try discriminate.
  - apply scale_plus.
  - change (np.conv_full (zip_with Rplus (x :: x' :: a) (y :: y' :: b)) v)
      with (np.padd (scale (x + y) v)
              (0 :: np.conv_full (zip_with Rplus (x' :: a) (y' :: b)) v)).
    change (np.conv_full (x :: x' :: a) v)
      with (np.padd (scale x v) (0 :: np.conv_full (x' :: a) v)).
    change (np.conv_full (y :: y' :: b) v)
      with (np.padd (scale y v) (0 :: np.conv_full (y' :: b) v)).
    rewrite (IH (y' :: b)) by (simpl in *; lia).
    rewrite scale_plus. replace 0 with (0 + 0) at 1 by ring.
    change ((0 + 0) :: zip_with Rplus (np.conv_full (x' :: a) v)
                         (np.conv_full (y' :: b) v))
      with (zip_with Rplus (0 :: np.conv_full (x' :: a) v)
              (0 :: np.conv_full (y' :: b) v)).
    apply padd_zip.
    + now rewrite !scale_length.
    + cbn [length]. f_equal. apply conv_full_same_length. simpl in *; lia.
Qed.

Lemma firstn_zip_with (n : nat) (a b : array) :
  firstn n (zip_with Rplus a b) = zip_with Rplus (firstn n a) (firstn n b).
Proof.
  revert a b. induction n as [| n IH]; intros [| x a] [| y b];
    try reflexivity.
  cbn [zip_with firstn]. now rewrite IH.
Qed.

Lemma scale_r_zip_with (a b : array) (t1 : R) :
  scale_r (zip_with Rplus a b) t1
  = zip_with Rplus (scale_r a t1) (scale_r b t1).
Proof.
  revert b. induction a as [| x a IH]; intros [| y b]; try reflexivity.
  cbn [zip_with scale_r map]. f_equal; [ring | apply IH].
Qed.

Lemma scale_zip_with (c : R) (a b : array) :
  scale c (zip_with Rplus a b) = zip_with Rplus (scale c a) (scale c b).
Proof. symmetry. apply zip_with_plus_scale. Qed.

Lemma zip_with_interchange (a b c d : array) :
  zip_with Rplus (zip_with Rplus a b) (zip_with Rplus c d)
  = zip_with Rplus (zip_with Rplus a c) (zip_with Rplus b d).
Proof.
  revert b c d. induction a as [| x a IH]; intros [| y b] [| z c] [| w d];
    try reflexivity.
  cbn [zip_with]. f_equal; [ring | apply IH].
Qed.

Lemma nth_zip_with_plus (a b : array) (i : nat) :
  length a = length b ->
  nth i (zip_with Rplus a b) 0 = nth i a 0 + nth i b 0.
Proof.
  revert b i. induction a as [| x a IH]; intros [| y b] i H;
    try discriminate.
  - destruct i; cbn; ring.
  - destruct i as [| i]; [reflexivity |]. cbn [zip_with nth].
    apply IH. simpl in H. lia.
Qed.

Lemma map_fst_combine (x y : array) :
  length y = length x -> map fst (combine x y) = x.
Proof.
  revert y. induction x as [| x0 x IH]; intros [| y0 y] H; try discriminate;
    [reflexivity |].
  cbn [combine map fst]. f_equal. apply IH. simpl in H. lia.
Qed.

Lemma map_snd_combine (x y : array) :
  length y = length x -> map snd (combine x y) = y.
Proof.
  revert y. induction x as [| x0 x IH]; intros [| y0 y] H; try discriminate;
    [reflexivity |].
  cbn [combine map snd]. f_equal. apply IH. simpl in H. lia.
Qed.

(** On a strictly increasing grid the linear interpolant is the plain
    piecewise-linear formula on the samples as given. *)
Lemma interpolant_linear_increasing (x y : array) (q : R) :
  strictly_increasing x -> length y = length x ->
  interpolant spline scipy.linear x y q
  = if scipy.out_of_bounds x q then 0 else scipy.call_linear x y q.
Proof.
  intros Hinc Hlen. unfold interpolant. cbv zeta.
  rewrite (sort_samples_increasing x y Hinc Hlen).
  now rewrite (map_fst_combine x y Hlen), (map_snd_combine x y Hlen).
Qed.

Lemma call_linear_plus (xs y1 y2 : array) (q : R) :
  length y1 = length y2 ->
  scipy.call_linear xs (zip_with Rplus y1 y2) q
  = scipy.call_linear xs y1 q + scipy.call_linear xs y2 q.
Proof.
  intros H. unfold scipy.call_linear.
  rewrite !(nth_zip_with_plus y1 y2) by exact H. unfold Rdiv. ring.
Qed.

Lemma map_plus (f g h : R -> R) (t : array) :
  (forall x, f x = g x + h x) ->
  map f t = zip_with Rplus (map g t) (map h t).
Proof.
  intros H. induction t as [| x t IH]; [reflexivity |].
  cbn [map zip_with]. now rewrite H, IH.
Qed.

Lemma delayed_aif_plus (t ca1 ca2 : array) (Ta : R) :
  strictly_increasing t ->
  length ca1 = length t -> length ca2 = length t ->
  delayed_aif spline t (zip_with Rplus ca1 ca2) Ta
  = zip_with Rplus (delayed_aif spline t ca1 Ta) (delayed_aif spline t ca2 Ta).
Proof.
  intros Hinc H1 H2. unfold delayed_aif. rewrite !zip_with_maps.
  assert (H12 : length (zip_with Rplus ca1 ca2) = length t)
    by (rewrite zip_with_length, H1, H2; apply Nat.min_id).
  apply map_plus. intros ti.
  rewrite !interpolant_linear_increasing by assumption.
  destruct (scipy.out_of_bounds t (ti - Ta)); [ring |].
  rewrite call_linear_plus by congruence. ring.
Qed.

Lemma arterial_input_plus (t ca1 ca2 : array) (Ta : R) :
  strictly_increasing t ->
  length ca1 = length t -> length ca2 = length t ->
  arterial_input spline t (zip_with Rplus ca1 ca2) Ta
  = zip_with Rplus (arterial_input spline t ca1 Ta)
      (arterial_input spline t ca2 Ta).
Proof.
  intros Hinc H1 H2. unfold arterial_input.
  destruct (Req_dec_T Ta 0); [reflexivity |]. now apply delayed_aif_plus.
Qed.

(** X13.  On a strictly increasing uniform grid, with non-degenerate
    parameters and the convolution method, both models are additive in the
    arterial series: the series returned for [ca1 + ca2] is the sum of the
    series returned for [ca1] and for [ca2], for every delay. *)
Theorem adding_arterial_series
    (t ca1 ca2 : array) (Ktrans ve vp Ta : R) (m : string) :
  uniform_spacing t = Ok true ->
  strictly_increasing t ->
  length ca1 = length t -> length ca2 = length t ->
  0 < Ktrans -> 0 < ve ->
  m <> "exp"%string ->
  exists ct1 ct2 ct1' ct2',
    snd (tofts spline exp_conv t ca1 Ktrans ve Ta m) = Ok ct1 /\
    snd (tofts spline exp_conv t ca2 Ktrans ve Ta m) = Ok ct2 /\
    snd (tofts spline exp_conv t (zip_with Rplus ca1 ca2) Ktrans ve Ta m)
      = Ok (zip_with Rplus ct1 ct2) /\
    snd (extended_tofts spline exp_conv t ca1 Ktrans ve vp Ta m) = Ok ct1' /\
    snd (extended_tofts spline exp_conv t ca2 Ktrans ve vp Ta m) = Ok ct2' /\
    snd (extended_tofts spline exp_conv t (zip_with Rplus ca1 ca2)
           Ktrans ve vp Ta m)
      = Ok (zip_with Rplus ct1' ct2').
Proof.
  intros Hu Hinc H1 H2 HK Hve Hm.
  pose proof (uniform_spacing_inv t true Hu) as Hlen.
  assert (H12 : length (zip_with Rplus ca1 ca2) = length t)
    by (rewrite zip_with_length, H1, H2; apply Nat.min_id).
  pose proof (arterial_input_length spline t ca1 Ta H1) as Hca1.
  pose proof (arterial_input_length spline t ca2 Ta H2) as Hca2.
  destruct (conv_uniform_code spline exp_conv t ca1 Ktrans ve vp Ta m
              Hu H1 HK Hve Hm) as [Ht1 He1].
  destruct (conv_uniform_code spline exp_conv t ca2 Ktrans ve vp Ta m
              Hu H2 HK Hve Hm) as [Ht2 He2].
  destruct (conv_uniform_code spline exp_conv t (zip_with Rplus ca1 ca2)
              Ktrans ve vp Ta m Hu H12 HK Hve Hm) as [Ht He].
  rewrite (arterial_input_plus t ca1 ca2 Ta Hinc H1 H2) in Ht, He.
  rewrite conv_full_plus, firstn_zip_with, scale_r_zip_with in Ht, He
    by congruence.
  set (a1 := arterial_input spline t ca1 Ta) in *.
  set (a2 := arterial_input spline t ca2 Ta) in *.
  set (imp := impulse_response (Ktrans / 60) (Ktrans / 60 / ve) t) in *.
  set (c1 := scale_r (firstn (length t) (np.conv_full a1 imp)) (nth 1 t 0)) in *.
  set (c2 := scale_r (firstn (length t) (np.conv_full a2 imp)) (nth 1 t 0)) in *.
  assert (Hc1 : length c1 = length t)
    by (apply uniform_window_length; [lia | exact Hca1]).
  assert (Hc2 : length c2 = length t)
    by (apply uniform_window_length; [lia | exact Hca2]).
  rewrite add_same_length in He1 by (now rewrite Hc1, scale_length, Hca1).
  rewrite add_same_length in He2 by (now rewrite Hc2, scale_length, Hca2).
  rewrite scale_zip_with, add_same_length, zip_with_interchange in He
    by (rewrite !zip_with_length, !scale_length, Hc1, Hc2, Hca1, Hca2;
        reflexivity).
  rewrite Ht1, Ht2, Ht, He1, He2, He. cbn [snd].
  do 4 eexists. repeat split; reflexivity.
Qed.

(** *** A delay that outlasts the grid *)

Lemma map_all_zero (f : R -> R) (t : array) :
  (forall x, In x t -> f x = 0) -> map f t = scale 0 t.
Proof.
  intros H. unfold scale. apply map_ext_in. intros x Hx.
  rewrite (H x Hx). ring.
Qed.

(** X14.  When the delay is not zero and no time point lies beyond it (the
    default [Ta = 30] on a grid that ends by [t = 30], say), the shifted
    arterial series is zero throughout, and on a uniform grid, with
    non-degenerate parameters and the convolution method, both models return
    the all-zero series whatever [ca] holds. *)
Theorem delay_beyond_the_grid
    (t ca : array) (Ktrans ve vp Ta : R) (m : string) :
  uniform_spacing t = Ok true ->
  length ca = length t ->
  Ta <> 0 ->
  (forall ti, In ti t -> ti <= Ta) ->
  0 < Ktrans -> 0 < ve ->
  m <> "exp"%string ->
  arterial_input spline t ca Ta = repeat 0 (length t) /\
  snd (tofts spline exp_conv t ca Ktrans ve Ta m) = Ok (repeat 0 (length t)) /\
  snd (extended_tofts spline exp_conv t ca Ktrans ve vp Ta m)
    = Ok (repeat 0 (length t)).
Proof.
  intros Hu Hca HTa Hlate HK Hve Hm.
  pose proof (uniform_spacing_inv t true Hu) as Hlen.
  assert (Hin : arterial_input spline t ca Ta = scale 0 t).
  { unfold arterial_input. destruct (Req_dec_T Ta 0); [contradiction |].
    unfold delayed_aif. rewrite zip_with_maps. apply map_all_zero.
    intros ti Hti. specialize (Hlate ti Hti).
    destruct (Rlt_dec Ta ti); [lra | ring]. }
  destruct (conv_uniform_code spline exp_conv t ca Ktrans ve vp Ta m
              Hu Hca HK Hve Hm) as [Ht He].
  rewrite Hin, conv_full_scale, firstn_scale, scale_r_scale in Ht, He.
  set (imp := impulse_response (Ktrans / 60) (Ktrans / 60 / ve) t) in *.
  set (c := scale_r (firstn (length t) (np.conv_full t imp)) (nth 1 t 0)) in *.
  assert (Hc : length c = length t)
    by (apply uniform_window_length; [lia | reflexivity]).
  rewrite (scale_comm vp 0), add_same_length, zip_with_plus_scale in He
    by (now rewrite !scale_length, Hc).
  rewrite Hin, Ht, He. cbn [snd]. rewrite !scale_zero.
  rewrite Hc, zip_with_length, Hc, scale_length, Nat.min_id.
  repeat split; reflexivity.
Qed.

(** *** The extended model as the base model plus plasma *)



(** *** Causality *)

Lemma prefix_nth (a b : array) (k j : nat) :
  firstn k a = firstn k b -> (j < k)%nat -> nth j a 0 = nth j b 0.
Proof.
  intros H Hj.
  pose proof (nth_firstn k a j 0) as Ha. pose proof (nth_firstn k b j 0) as Hb.
  destruct (Nat.ltb_spec j k); [| lia]. rewrite <- Ha, <- Hb. now rewrite H.
Qed.

Lemma prefix_of_nth (a b : array) (k : nat) :
  length a = length b ->
  (forall j, (j < k)%nat -> (j < length a)%nat -> nth j a 0 = nth j b 0) ->
  firstn k a = firstn k b.
Proof.
  revert a b. induction k as [| k IH]; intros [| x a] [| y b] Hlen H;
    try discriminate; try reflexivity.
  cbn [firstn]. f_equal.
  - apply (H 0%nat); simpl; lia.
  - apply IH; [simpl in Hlen; lia |].
    intros j Hj Hja. apply (H (S j)); simpl; lia.
Qed.

Lemma prefix_shrink (a b : array) (j k : nat) :
  firstn k a = firstn k b -> (j <= k)%nat -> firstn j a = firstn j b.
Proof.
  intros H Hj. rewrite <- (Nat.min_l j k Hj), <- !firstn_firstn. now rewrite H.
Qed.

Lemma increasing_tail (x : R) (t : array) :
  strictly_increasing (x :: t) ->
  strictly_increasing t /\ Forall (fun y => x < y) t.
Proof.
  revert x. induction t as [| y t IH]; intros x H.
  - split; constructor.
  - unfold strictly_increasing in H. cbn [np.diff] in H.
    inversion H as [| d ds Hd Hrest]. subst.
    split; [exact Hrest |].
    destruct (IH y Hrest) as [_ Hgt].
    constructor; [lra |].
    revert Hgt. apply Forall_impl. intros z Hz. lra.
Qed.

Lemma searchsorted_none (t : array) (q : R) :
  Forall (fun y => q <= y) t -> scipy.searchsorted t q = 0%nat.
Proof.
  unfold scipy.searchsorted. induction 1 as [| y t Hy _ IH]; [reflexivity |].
  cbn [filter]. now rewrite (Rlt_bool_false y q Hy).
Qed.

(** Below the [i]-th node of an increasing grid lie at most [i] nodes. *)
Lemma searchsorted_bound (t : array) (q : R) (i : nat) :
  strictly_increasing t -> (i < length t)%nat -> q <= nth i t 0 ->
  (scipy.searchsorted t q <= i)%nat.
Proof.
  revert i. induction t as [| x t IH]; intros i Hinc Hi Hq;
    [simpl in Hi; lia |].
  destruct (increasing_tail x t Hinc) as [Hinc' Hgt].
  destruct i as [| i].
  - cbn [nth] in Hq.
    change (scipy.searchsorted (x :: t) q)
      with (length (if Rlt_bool x q
                    then x :: filter (fun xi => Rlt_bool xi q) t
                    else filter (fun xi => Rlt_bool xi q) t)).
    rewrite (Rlt_bool_false x q Hq).
    fold (scipy.searchsorted t q). rewrite searchsorted_none; [lia |].
    revert Hgt. apply Forall_impl. intros z Hz. lra.
  - cbn [nth] in Hq. simpl in Hi.
    assert (Hle : (scipy.searchsorted t q <= i)%nat) by (apply IH; [easy | lia | easy]).
    change (scipy.searchsorted (x :: t) q)
      with (length (if Rlt_bool x q
                    then x :: filter (fun xi => Rlt_bool xi q) t
                    else filter (fun xi => Rlt_bool xi q) t)).
    unfold scipy.searchsorted in Hle.
    destruct (Rlt_bool x q); simpl; lia.
Qed.

Lemma delayed_prefix (t ca1 ca2 : array) (Ta : R) (k i : nat) :
  strictly_increasing t ->
  length ca1 = length t -> length ca2 = length t ->
  0 < Ta ->
  firstn k ca1 = firstn k ca2 ->
  (i < k)%nat -> (i < length t)%nat ->
  nth i (delayed_aif spline t ca1 Ta) 0 = nth i (delayed_aif spline t ca2 Ta) 0.
Proof.
  intros Hinc H1 H2 HTa Hpre Hik Hi. unfold delayed_aif.
  rewrite !(zip_with_map_nth _ _ t i Hi).
  destruct (Rlt_dec Ta (nth i t 0)) as [Hlate | Hearly];
    [| now rewrite !Rmult_0_l].
  f_equal. rewrite !interpolant_linear_increasing by assumption.
  destruct (scipy.out_of_bounds t (nth i t 0 - Ta)) eqn:Hoob; [reflexivity |].
  assert (Hss : (scipy.searchsorted t (nth i t 0 - Ta)%R <= i)%nat)
    by (apply searchsorted_bound; [assumption | assumption | lra]).
  assert (Hi0 : (1 <= i)%nat).
  { destruct i as [| i]; [| lia]. exfalso.
    unfold scipy.out_of_bounds in Hoob.
    destruct t as [| t0 t]; [simpl in Hi; lia |].
    cbn [hd nth] in Hoob. rewrite Rlt_bool_true in Hoob by lra.
    discriminate. }
  unfold scipy.call_linear.
  set (hi := Nat.min (Nat.max (scipy.searchsorted t (nth i t 0 - Ta)) 1)
               (length t - 1)%nat).
  assert (Hhi : (hi < k)%nat) by (unfold hi; lia).
  rewrite (prefix_nth ca1 ca2 k hi Hpre Hhi).
  rewrite (prefix_nth ca1 ca2 k (hi - 1) Hpre) by lia.
  reflexivity.
Qed.

Lemma arterial_prefix (t ca1 ca2 : array) (Ta : R) (k : nat) :
  strictly_increasing t ->
  length ca1 = length t -> length ca2 = length t ->
  0 <= Ta ->
  firstn k ca1 = firstn k ca2 ->
  firstn k (arterial_input spline t ca1 Ta)
  = firstn k (arterial_input spline t ca2 Ta).
Proof.
  intros Hinc H1 H2 HTa Hpre. unfold arterial_input.
  destruct (Req_dec_T Ta 0); [exact Hpre |].
  apply prefix_of_nth; [now rewrite !delayed_aif_length |].
  intros j Hj Hjlen. rewrite delayed_aif_length in Hjlen.
  apply (delayed_prefix t ca1 ca2 Ta k j); try assumption. lra.
Qed.

Lemma firstn_padd (k : nat) (a b : array) :
  firstn k (np.padd a b) = np.padd (firstn k a) (firstn k b).
Proof.
  revert a b. induction k as [| k IH]; intros [| x a] [| y b];
    try reflexivity.
  cbn [np.padd firstn]. now rewrite IH.
Qed.

Lemma conv_prefix (a b v : array) (k : nat) :
  length a = length b ->
  firstn k a = firstn k b ->
  firstn k (np.conv_full a v) = firstn k (np.conv_full b v).
Proof.
  revert b k. induction a as [| x a IH]; intros [| y b] k Hlen Hpre;
    try discriminate; [reflexivity |].
  destruct k as [| k]; [reflexivity |].
  cbn [firstn] in Hpre. injection Hpre as Hxy Hpre. subst y.
  destruct a as [| x' a], b as [| y' b]; try discriminate; [reflexivity |].
  change (np.conv_full (x :: x' :: a) v)
    with (np.padd (scale x v) (0 :: np.conv_full (x' :: a) v)).
  change (np.conv_full (x :: y' :: b) v)
    with (np.padd (scale x v) (0 :: np.conv_full (y' :: b) v)).
  rewrite !firstn_padd. cbn [firstn].
  rewrite (IH (y' :: b) k); [reflexivity | simpl in *; lia | exact Hpre].
Qed.

(** X16.  On a strictly increasing uniform grid, with non-degenerate
    parameters, the convolution method and a delay that is not negative,
    both models are causal: two arterial series that agree on their first
    [k] samples give returned series that agree on their first [k]
    samples. *)
Theorem causal_in_the_arterial_series
    (t ca1 ca2 : array) (Ktrans ve vp Ta : R) (m : string) (k : nat) :
  uniform_spacing t = Ok true ->
  strictly_increasing t ->
  length ca1 = length t -> length ca2 = length t ->
  0 <= Ta ->
  0 < Ktrans -> 0 < ve ->
  m <> "exp"%string ->
  firstn k ca1 = firstn k ca2 ->
  exists ct1 ct2 ct1' ct2',
    snd (tofts spline exp_conv t ca1 Ktrans ve Ta m) = Ok ct1 /\
    snd (tofts spline exp_conv t ca2 Ktrans ve Ta m) = Ok ct2 /\
    firstn k ct1 = firstn k ct2 /\
    snd (extended_tofts spline exp_conv t ca1 Ktrans ve vp Ta m) = Ok ct1' /\
    snd (extended_tofts spline exp_conv t ca2 Ktrans ve vp Ta m) = Ok ct2' /\
    firstn k ct1' = firstn k ct2'.
Proof.
  intros Hu Hinc H1 H2 HTa HK Hve Hm Hpre.
  pose proof (uniform_spacing_inv t true Hu) as Hlen.
  pose proof (arterial_input_length spline t ca1 Ta H1) as Hca1.
  pose proof (arterial_input_length spline t ca2 Ta H2) as Hca2.
  destruct (conv_uniform_code spline exp_conv t ca1 Ktrans ve vp Ta m
              Hu H1 HK Hve Hm) as [Ht1 He1].
  destruct (conv_uniform_code spline exp_conv t ca2 Ktrans ve vp Ta m
              Hu H2 HK Hve Hm) as [Ht2 He2].
  pose proof (arterial_prefix t ca1 ca2 Ta k Hinc H1 H2 HTa Hpre) as Hin.
  set (a1 := arterial_input spline t ca1 Ta) in *.
  set (a2 := arterial_input spline t ca2 Ta) in *.
  set (imp := impulse_response (Ktrans / 60) (Ktrans / 60 / ve) t) in *.
  set (c1 := scale_r (firstn (length t) (np.conv_full a1 imp)) (nth 1 t 0)) in *.
  set (c2 := scale_r (firstn (length t) (np.conv_full a2 imp)) (nth 1 t 0)) in *.
  assert (Hc1 : length c1 = length t)
    by (apply uniform_window_length; [lia | exact Hca1]).
  assert (Hc2 : length c2 = length t)
    by (apply uniform_window_length; [lia | exact Hca2]).
  assert (Hc : firstn k c1 = firstn k c2).
  { unfold c1, c2, scale_r. rewrite !firstn_map, !firstn_firstn. f_equal.
    apply conv_prefix; [congruence |].
    apply (prefix_shrink a1 a2 _ k Hin). lia. }
  rewrite add_same_length in He1 by (now rewrite Hc1, scale_length, Hca1).
  rewrite add_same_length in He2 by (now rewrite Hc2, scale_length, Hca2).
  rewrite Ht1, Ht2, He1, He2. cbn [snd].
  do 4 eexists. repeat split; try reflexivity; [exact Hc |].
  rewrite !firstn_zip_with, !firstn_scale. now rewrite Hc, Hin.
Qed.

End Coverage.

(** ** The further properties at concrete inputs *)

Ltac abs_lra := unfold np.atol, np.rtol, Rabs; repeat destruct Rcase_abs; lra.

Lemma uniform_0_1_2 : uniform_spacing [0; 1; 2] = Ok true.
Proof.
  unfold uniform_spacing. cbn [np.diff getitem nth_error bind].
  f_equal. apply allclose_exact. intros x [<- | [<- | []]]; lra.
Qed.

Lemma uniform_0_10_20 : uniform_spacing [0; 10; 20] = Ok true.
Proof.
  unfold uniform_spacing. cbn [np.diff getitem nth_error bind].
  f_equal. apply allclose_exact. intros x [<- | [<- | []]]; lra.
Qed.

Lemma increasing_0_1_2 : strictly_increasing [0; 1; 2].
Proof. unfold strictly_increasing. cbn [np.diff]. repeat constructor; lra. Qed.

Lemma increasing_0_1_3 : strictly_increasing [0; 1; 3].
Proof. unfold strictly_increasing. cbn [np.diff]. repeat constructor; lra. Qed.

Lemma min_spacing_0_1_3 : np.min (np.diff [0; 1; 3]) = Ok 1.
Proof.
  cbn [np.diff np.min fold_left]. f_equal.
  unfold Rmin. destruct (Rle_dec (1 - 0) (3 - 1)); lra.
Qed.

Lemma nonuniform_0_1_1_3 : uniform_spacing [0; 1; 1; 3] = Ok false.
Proof.
  unfold uniform_spacing. cbn [np.diff getitem nth_error bind].
  unfold np.allclose. cbn [forallb].
  rewrite (Rle_bool_true (Rabs (1 - 0 - (1 - 0)))) by abs_lra.
  rewrite (Rle_bool_false (Rabs (1 - 1 - (1 - 0)))) by abs_lra.
  reflexivity.
Qed.

Lemma short_grid_raises_witness :
  (length [0] < 2)%nat /\
  tofts parabola exp_conv_model [0] [1] (3 / 5) (1 / 5) 30 "conv" = ([], Raise IndexError) /\
  extended_tofts parabola exp_conv_model [0] [1] (3 / 5) (1 / 5) (3 / 10) 30 "conv"
    = ([], Raise IndexError).
Proof.
  split; [simpl; lia |].
  apply (short_grid_raises parabola exp_conv_model
           [0] [1] (3 / 5) (1 / 5) (3 / 10) 30 "conv").
  simpl. lia.
Defined.

Lemma evenly_spaced_grid_is_silent_witness :
  (2 <= length [0; 1; 2])%nat /\
  (forall d, In d (np.diff [0; 1; 2]) ->
             d = nth 1 [0; 1; 2] 0 - nth 0 [0; 1; 2] 0) /\
  fst (tofts parabola exp_conv_model [0; 1; 2] [1; 2; 3] (3 / 5) (1 / 5) 30 "conv") = [] /\
  fst (extended_tofts parabola exp_conv_model [0; 1; 2] [1; 2; 3] (3 / 5) (1 / 5) (3 / 10) 30
         "conv") = [].
Proof.
  assert (H : forall d, In d (np.diff [0; 1; 2]) ->
                        d = nth 1 [0; 1; 2] 0 - nth 0 [0; 1; 2] 0).
  { cbn [np.diff nth]. intros d [<- | [<- | []]]; lra. }
  split; [simpl; lia |]. split; [exact H |].
  apply (evenly_spaced_grid_is_silent parabola exp_conv_model
           [0; 1; 2] [1; 2; 3] (3 / 5) (1 / 5) (3 / 10) 30 "conv").
  - simpl. lia.
  - exact H.
Defined.

Lemma deviating_grid_warns_once_witness :
  (2 <= length [0; 1; 3])%nat /\
  In (3 - 1) (np.diff [0; 1; 3]) /\
  np.atol + np.rtol * Rabs (nth 1 [0; 1; 3] 0 - nth 0 [0; 1; 3] 0)
    < Rabs (3 - 1 - (nth 1 [0; 1; 3] 0 - nth 0 [0; 1; 3] 0)) /\
  fst (tofts parabola exp_conv_model [0; 1; 3] [1; 2; 3] 0 (1 / 5) 30 "exp")
    = [nonuniform_warning] /\
  fst (extended_tofts parabola exp_conv_model [0; 1; 3] [1; 2; 3] 0 (1 / 5) (3 / 10) 30 "exp")
    = [nonuniform_warning].
Proof.
  assert (Hin : In (3 - 1) (np.diff [0; 1; 3]))
    by (cbn [np.diff]; right; left; reflexivity).
  assert (Hdev :
    np.atol + np.rtol * Rabs (nth 1 [0; 1; 3] 0 - nth 0 [0; 1; 3] 0)
    < Rabs (3 - 1 - (nth 1 [0; 1; 3] 0 - nth 0 [0; 1; 3] 0)))
    by (cbn [nth]; abs_lra).
  split; [simpl; lia |]. split; [exact Hin |]. split; [exact Hdev |].
  apply (deviating_grid_warns_once parabola exp_conv_model
           [0; 1; 3] [1; 2; 3] 0 (1 / 5) (3 / 10) 30 "exp" (3 - 1)).
  - simpl. lia.
  - exact Hin.
  - exact Hdev.
Defined.

Lemma length_mismatch_with_delay_raises_witness :
  (2 <= length [0; 1; 2])%nat /\
  length [1; 2] <> length [0; 1; 2] /\
  30 <> 0 /\ 0 < 3 / 5 /\ 0 < 1 / 5 /\
  snd (tofts parabola exp_conv_model [0; 1; 2] [1; 2] (3 / 5) (1 / 5) 30 "exp")
    = Raise ValueError /\
  snd (extended_tofts parabola exp_conv_model [0; 1; 2] [1; 2] (3 / 5) (1 / 5) (3 / 10) 30 "exp")
    = Raise ValueError.
Proof.
  split; [simpl; lia |]. split; [discriminate |]. split; [lra |].
  split; [lra |]. split; [lra |].
  apply (length_mismatch_with_delay_raises parabola exp_conv_model
           [0; 1; 2] [1; 2] (3 / 5) (1 / 5) (3 / 10) 30 "exp").
  - simpl. lia.
  - discriminate.
  - lra.
  - lra.
  - lra.
Defined.

Lemma length_mismatch_without_delay_witness :
  uniform_spacing [0; 1; 2] = Ok true /\
  (2 <= length [1; 2])%nat /\
  length [1; 2] <> length [0; 1; 2] /\
  0 < 3 / 5 /\ 0 < 1 / 5 /\
  "conv"%string <> "exp"%string /\
  (exists ct,
     snd (tofts parabola exp_conv_model [0; 1; 2] [1; 2] (3 / 5) (1 / 5) 0 "conv") = Ok ct /\
     length ct = length [0; 1; 2]) /\
  snd (extended_tofts parabola exp_conv_model [0; 1; 2] [1; 2] (3 / 5) (1 / 5) (3 / 10) 0 "conv")
    = Raise ValueError.
Proof.
  split; [exact uniform_0_1_2 |]. split; [simpl; lia |].
  split; [discriminate |]. split; [lra |]. split; [lra |].
  split; [discriminate |].
  apply (length_mismatch_without_delay parabola exp_conv_model
           [0; 1; 2] [1; 2] (3 / 5) (1 / 5) (3 / 10) "conv").
  - exact uniform_0_1_2.
  - simpl. lia.
  - discriminate.
  - lra.
  - lra.
  - discriminate.
Defined.

Lemma uniform_grid_convolution_returns_witness :
  uniform_spacing [0; 1; 2] = Ok true /\
  length [1; 2; 3] = length [0; 1; 2] /\
  ("conv"%string <> "exp"%string \/ 3 / 5 <= 0 \/ 1 / 5 <= 0) /\
  exists ct ct',
    tofts parabola exp_conv_model [0; 1; 2] [1; 2; 3] (3 / 5) (1 / 5) 30 "conv"
      = ([], Ok ct) /\
    extended_tofts parabola exp_conv_model [0; 1; 2] [1; 2; 3] (3 / 5) (1 / 5)
      (3 / 10) 30 "conv" = ([], Ok ct') /\
    length ct = length [0; 1; 2] /\ length ct' = length [0; 1; 2].
Proof.
  split; [exact uniform_0_1_2 |]. split; [reflexivity |].
  split; [left; discriminate |].
  apply (uniform_grid_convolution_returns parabola exp_conv_model
           [0; 1; 2] [1; 2; 3] (3 / 5) (1 / 5) (3 / 10) 30 "conv").
  - exact uniform_0_1_2.
  - reflexivity.
  - left. discriminate.
Defined.

Lemma models_return_or_raise_together_witness :
  (forall T t a, length a = length t ->
                 length (exp_conv_model T t a) = length t) /\
  length [1; 1; 1] = length [0; 1; 5 / 2] /\
  fst (tofts parabola exp_conv_model [0; 1; 5 / 2] [1; 1; 1] (3 / 5) (1 / 5) 0
         "conv")
    = fst (extended_tofts parabola exp_conv_model [0; 1; 5 / 2] [1; 1; 1]
             (3 / 5) (1 / 5) (3 / 10) 0 "conv") /\
  ((exists ct ct',
      snd (tofts parabola exp_conv_model [0; 1; 5 / 2] [1; 1; 1] (3 / 5)
             (1 / 5) 0 "conv") = Ok ct /\
      snd (extended_tofts parabola exp_conv_model [0; 1; 5 / 2] [1; 1; 1]
             (3 / 5) (1 / 5) (3 / 10) 0 "conv") = Ok ct' /\
      length ct = length [0; 1; 5 / 2] /\
      length ct' = length [0; 1; 5 / 2]) \/
   (exists e,
      snd (tofts parabola exp_conv_model [0; 1; 5 / 2] [1; 1; 1] (3 / 5)
             (1 / 5) 0 "conv") = Raise e /\
      snd (extended_tofts parabola exp_conv_model [0; 1; 5 / 2] [1; 1; 1]
             (3 / 5) (1 / 5) (3 / 10) 0 "conv") = Raise e)).
Proof.
  split; [exact exp_conv_model_length |]. split; [reflexivity |].
  apply (models_return_or_raise_together parabola exp_conv_model
           [0; 1; 5 / 2] [1; 1; 1] (3 / 5) (1 / 5) (3 / 10) 0 "conv").
  - exact exp_conv_model_length.
  - reflexivity.
Defined.

Lemma convolution_from_origin_witness :
  uniform_spacing [0; 1; 2] = Ok true /\
  length [1; 2; 3] = length [0; 1; 2] /\
  0 < 3 / 5 /\ 0 < 1 / 5 /\
  "conv"%string <> "exp"%string /\
  nth 0 [0; 1; 2] 0 = 0 /\
  let ca' := arterial_input parabola [0; 1; 2] [1; 2; 3] 0 in
  snd (tofts parabola exp_conv_model [0; 1; 2] [1; 2; 3] (3 / 5) (1 / 5) 0 "conv")
    = Ok (riemann_convolution [0; 1; 2] ca' (3 / 5) (1 / 5)) /\
  snd (extended_tofts parabola exp_conv_model [0; 1; 2] [1; 2; 3] (3 / 5) (1 / 5) (3 / 10) 0 "conv")
    = Ok (zip_with Rplus (riemann_convolution [0; 1; 2] ca' (3 / 5) (1 / 5))
            (scale (3 / 10) ca')).
Proof.
  split; [exact uniform_0_1_2 |]. split; [reflexivity |].
  split; [lra |]. split; [lra |]. split; [discriminate |].
  split; [reflexivity |].
  apply (convolution_from_origin parabola exp_conv_model
           [0; 1; 2] [1; 2; 3] (3 / 5) (1 / 5) (3 / 10) 0 "conv").
  - exact uniform_0_1_2.
  - reflexivity.
  - lra.
  - lra.
  - discriminate.
  - reflexivity.
Defined.

Lemma resampled_spacing_exceeds_dt_min_witness :
  strictly_increasing [0; 1; 3] /\
  (3 <= length [0; 1; 3])%nat /\
  np.min (np.diff [0; 1; 3]) = Ok 1 /\
  exists tr,
    resample_grid [0; 1; 3] 1 = Ok tr /\
    (2 <= length tr)%nat /\
    nth 0 tr 0 = hd 0 [0; 1; 3] /\
    nth (length tr - 1) tr 0 = last [0; 1; 3] 0 /\
    forall i, (S i < length tr)%nat -> 1 < nth (S i) tr 0 - nth i tr 0.
Proof.
  split; [exact increasing_0_1_3 |]. split; [simpl; lia |].
  split; [exact min_spacing_0_1_3 |].
  apply (resampled_spacing_exceeds_dt_min [0; 1; 3] 1).
  - exact increasing_0_1_3.
  - simpl. lia.
  - exact min_spacing_0_1_3.
Defined.

Lemma repeated_time_point_raises_witness :
  uniform_spacing [0; 1; 1; 3] = Ok false /\
  Forall (fun d => 0 <= d) (np.diff [0; 1; 1; 3]) /\
  In 0 (np.diff [0; 1; 1; 3]) /\
  last [0; 1; 1; 3] 0 <> hd 0 [0; 1; 1; 3] /\
  length [1; 2; 3; 4] = length [0; 1; 1; 3] /\
  0 < 3 / 5 /\ 0 < 1 / 5 /\
  "conv"%string <> "exp"%string /\
  snd (tofts parabola exp_conv_model [0; 1; 1; 3] [1; 2; 3; 4] (3 / 5) (1 / 5) 0 "conv")
    = Raise OverflowError /\
  snd (extended_tofts parabola exp_conv_model [0; 1; 1; 3] [1; 2; 3; 4] (3 / 5) (1 / 5) (3 / 10) 0
         "conv") = Raise OverflowError.
Proof.
  assert (Hnonneg : Forall (fun d => 0 <= d) (np.diff [0; 1; 1; 3]))
    by (cbn [np.diff]; repeat constructor; lra).
  assert (Hzero : In 0 (np.diff [0; 1; 1; 3]))
    by (cbn [np.diff]; right; left; lra).
  assert (Hspan : last [0; 1; 1; 3] 0 <> hd 0 [0; 1; 1; 3])
    by (cbn [last hd]; lra).
  split; [exact nonuniform_0_1_1_3 |]. split; [exact Hnonneg |].
  split; [exact Hzero |]. split; [exact Hspan |]. split; [reflexivity |].
  split; [lra |]. split; [lra |]. split; [discriminate |].
  apply (repeated_time_point_raises parabola exp_conv_model
           [0; 1; 1; 3] [1; 2; 3; 4] (3 / 5) (1 / 5) (3 / 10) 0 "conv").
  - exact nonuniform_0_1_1_3.
  - exact Hnonneg.
  - exact Hzero.
  - exact Hspan.
  - reflexivity.
  - lra.
  - lra.
  - discriminate.
Defined.

Lemma scaling_the_arterial_series_witness :
  uniform_spacing [0; 1; 2] = Ok true /\
  length [1; 2; 3] = length [0; 1; 2] /\
  0 < 3 / 5 /\ 0 < 1 / 5 /\
  "conv"%string <> "exp"%string /\
  exists ct ct',
    snd (tofts parabola exp_conv_model [0; 1; 2] [1; 2; 3] (3 / 5) (1 / 5) 1 "conv") = Ok ct /\
    snd (tofts parabola exp_conv_model [0; 1; 2] (scale 2 [1; 2; 3]) (3 / 5) (1 / 5) 1 "conv")
      = Ok (scale 2 ct) /\
    snd (extended_tofts parabola exp_conv_model [0; 1; 2] [1; 2; 3] (3 / 5) (1 / 5) (3 / 10) 1
           "conv") = Ok ct' /\
    snd (extended_tofts parabola exp_conv_model [0; 1; 2] (scale 2 [1; 2; 3]) (3 / 5) (1 / 5)
           (3 / 10) 1 "conv") = Ok (scale 2 ct').
Proof.
  split; [exact uniform_0_1_2 |]. split; [reflexivity |].
  split; [lra |]. split; [lra |]. split; [discriminate |].
  apply (scaling_the_arterial_series parabola exp_conv_model
           [0; 1; 2] [1; 2; 3] (3 / 5) (1 / 5) (3 / 10) 1 2 "conv").
  - exact uniform_0_1_2.
  - reflexivity.
  - lra.
  - lra.
  - discriminate.
Defined.

Lemma adding_arterial_series_witness :
  uniform_spacing [0; 1; 2] = Ok true /\
  strictly_increasing [0; 1; 2] /\
  length [1; 2; 3] = length [0; 1; 2] /\
  length [4; 0; 1] = length [0; 1; 2] /\
  0 < 3 / 5 /\ 0 < 1 / 5 /\
  "conv"%string <> "exp"%string /\
  exists ct1 ct2 ct1' ct2',
    snd (tofts parabola exp_conv_model [0; 1; 2] [1; 2; 3] (3 / 5) (1 / 5) 1 "conv") = Ok ct1 /\
    snd (tofts parabola exp_conv_model [0; 1; 2] [4; 0; 1] (3 / 5) (1 / 5) 1 "conv") = Ok ct2 /\
    snd (tofts parabola exp_conv_model [0; 1; 2] (zip_with Rplus [1; 2; 3] [4; 0; 1]) (3 / 5)
           (1 / 5) 1 "conv") = Ok (zip_with Rplus ct1 ct2) /\
    snd (extended_tofts parabola exp_conv_model [0; 1; 2] [1; 2; 3] (3 / 5) (1 / 5) (3 / 10) 1
           "conv") = Ok ct1' /\
    snd (extended_tofts parabola exp_conv_model [0; 1; 2] [4; 0; 1] (3 / 5) (1 / 5) (3 / 10) 1
           "conv") = Ok ct2' /\
    snd (extended_tofts parabola exp_conv_model [0; 1; 2] (zip_with Rplus [1; 2; 3] [4; 0; 1])
           (3 / 5) (1 / 5) (3 / 10) 1 "conv") = Ok (zip_with Rplus ct1' ct2').
Proof.
  split; [exact uniform_0_1_2 |]. split; [exact increasing_0_1_2 |].
  split; [reflexivity |]. split; [reflexivity |].
  split; [lra |]. split; [lra |]. split; [discriminate |].
  apply (adding_arterial_series parabola exp_conv_model
           [0; 1; 2] [1; 2; 3] [4; 0; 1] (3 / 5) (1 / 5) (3 / 10) 1 "conv").
  - exact uniform_0_1_2.
  - exact increasing_0_1_2.
  - reflexivity.
  - reflexivity.
  - lra.
  - lra.
  - discriminate.
Defined.

Lemma delay_beyond_the_grid_witness :
  uniform_spacing [0; 10; 20] = Ok true /\
  length [1; 2; 3] = length [0; 10; 20] /\
  30 <> 0 /\
  (forall ti, In ti [0; 10; 20] -> ti <= 30) /\
  0 < 3 / 5 /\ 0 < 1 / 5 /\
  "conv"%string <> "exp"%string /\
  arterial_input parabola [0; 10; 20] [1; 2; 3] 30
    = repeat 0 (length [0; 10; 20]) /\
  snd (tofts parabola exp_conv_model [0; 10; 20] [1; 2; 3] (3 / 5) (1 / 5) 30 "conv")
    = Ok (repeat 0 (length [0; 10; 20])) /\
  snd (extended_tofts parabola exp_conv_model [0; 10; 20] [1; 2; 3] (3 / 5) (1 / 5) (3 / 10) 30
         "conv") = Ok (repeat 0 (length [0; 10; 20])).
Proof.
  assert (Hlate : forall ti, In ti [0; 10; 20] -> ti <= 30)
    by (intros ti [<- | [<- | [<- | []]]]; lra).
  split; [exact uniform_0_10_20 |]. split; [reflexivity |].
  split; [lra |]. split; [exact Hlate |].
  split; [lra |]. split; [lra |]. split; [discriminate |].
  apply (delay_beyond_the_grid parabola exp_conv_model
           [0; 10; 20] [1; 2; 3] (3 / 5) (1 / 5) (3 / 10) 30 "conv").
  - exact uniform_0_10_20.
  - reflexivity.
  - lra.
  - exact Hlate.
  - lra.
  - lra.
  - discriminate.
Defined.


Lemma causal_in_the_arterial_series_witness :
  uniform_spacing [0; 1; 2] = Ok true /\
  strictly_increasing [0; 1; 2] /\
  length [1; 2; 3] = length [0; 1; 2] /\
  length [1; 2; 7] = length [0; 1; 2] /\
  0 <= 1 /\ 0 < 3 / 5 /\ 0 < 1 / 5 /\
  "conv"%string <> "exp"%string /\
  firstn 2 [1; 2; 3] = firstn 2 [1; 2; 7] /\
  exists ct1 ct2 ct1' ct2',
    snd (tofts parabola exp_conv_model [0; 1; 2] [1; 2; 3] (3 / 5) (1 / 5) 1 "conv") = Ok ct1 /\
    snd (tofts parabola exp_conv_model [0; 1; 2] [1; 2; 7] (3 / 5) (1 / 5) 1 "conv") = Ok ct2 /\
    firstn 2 ct1 = firstn 2 ct2 /\
    snd (extended_tofts parabola exp_conv_model [0; 1; 2] [1; 2; 3] (3 / 5) (1 / 5) (3 / 10) 1
           "conv") = Ok ct1' /\
    snd (extended_tofts parabola exp_conv_model [0; 1; 2] [1; 2; 7] (3 / 5) (1 / 5) (3 / 10) 1
           "conv") = Ok ct2' /\
    firstn 2 ct1' = firstn 2 ct2'.
Proof.
  split; [exact uniform_0_1_2 |]. split; [exact increasing_0_1_2 |].
  split; [reflexivity |]. split; [reflexivity |].
  split; [lra |]. split; [lra |]. split; [lra |]. split; [discriminate |].
  split; [reflexivity |].
  apply (causal_in_the_arterial_series parabola exp_conv_model
           [0; 1; 2] [1; 2; 3] [1; 2; 7] (3 / 5) (1 / 5) (3 / 10) 1 "conv" 2).
  - exact uniform_0_1_2.
  - exact increasing_0_1_2.
  - reflexivity.
  - reflexivity.
  - lra.
  - lra.
  - lra.
  - discriminate.
  - reflexivity.
Defined.
